(** * Sharding propagation of torch/distributed/_tensor/sharding_prop.py

    A shallow embedding of [ShardingPropagator] and [_CachingPropagator].
    Python objects that the code mutates and aliases (DTensorSpec,
    OutputSharding, the [meta] dictionaries of fx nodes) live in an explicit
    store; every method is a computation in a state-and-exception monad whose
    final state is kept also when an exception is raised. *)

From Stdlib Require Import ZArith.
From stdpp Require Import base option list strings gmap.

Open Scope Z_scope.
Open Scope string_scope.
Open Scope list_scope.

(** ** Data model *)

(** Placement tags of one device-mesh dimension. *)
Inductive Placement :=
| Replicate
| Shard (dim : Z)
| Partial.

(** Shape/stride/dtype bookkeeping of a tensor; the same record stands for
    [DTensorSpec.tensor_meta], for [node.meta["tensor_meta"]] and for the
    fake tensors of [torch.empty_strided]. *)
Record TensorMetadata := mkTensorMetadata {
  shape : list Z;
  stride : list Z;
  dtype : string;
  requires_grad : bool
}.

(** Addresses of store objects and names of fx nodes. *)
Abbreviation loc := nat.
Abbreviation node_id := string.

(** An operator: its qualified name and its [_schema] attribute. *)
Record OpOverload := mkOpOverload {
  op_name : string;
  _schema : string
}.

Local Set Warnings "-register-all".

(** Python values as the propagator meets them: [None], plain non-tensor
    arguments, references to DTensorSpec and OutputSharding objects,
    references to fx nodes, fake tensors, and the containers pytree
    recurses into (lists/tuples and dicts). *)
Inductive value :=
| VNone
| VInt (z : Z)
| VSpec (l : loc)
| VSharding (l : loc)
| VNode (n : node_id)
| VFake (t : TensorMetadata)
| VList (vs : list value)
| VDict (kvs : list (string * value)).

(** Modelled from the spec: the class OpSchema of op_schema.py, the
    operation's signature descriptor with the operand specs of its
    positional and keyword arguments. Built by
    [OpSchema(func_schema, args_schema, kwargs_schema)] and never mutated by
    the code of this file, hence a plain value. *)
Record OpSchema := mkOpSchema {
  func_schema : string;
  args_schema : value;
  kwargs_schema : value
}.

(** Modelled from the spec: the class DTensorSpec of op_schema.py, the
    partitioning of one operand and its tensor metadata. *)
Record DTensorSpec := mkDTensorSpec {
  placements : list Placement;
  tensor_meta : option TensorMetadata
}.

(** Modelled from the spec: the class OutputSharding of op_schema.py, an
    optional output spec, an optional sequence of suggested schemas and an
    optional failure reason. [output_spec = VNone] is Python's [None].
    [extra_tensor_meta] is the instance attribute [tensor_meta] that
    [unwrap_spec_from_node] creates when the object it finds under
    [meta["sharding"]] is an OutputSharding ([None]: attribute never set). *)
Record OutputSharding := mkOutputSharding {
  output_spec : value;
  schema_suggestions : option (list OpSchema);
  failed_reason : option string;
  extra_tensor_meta : option TensorMetadata
}.

Inductive obj :=
| ODTensorSpec (s : DTensorSpec)
| OOutputSharding (o : OutputSharding).

(** The two keys of [node.meta] the propagator reads and writes. *)
Record node_meta := mkNodeMeta {
  meta_sharding : option value;
  meta_tensor_meta : option TensorMetadata
}.

(** Modelled from the spec: a node of the trial graph (torch.fx.Node) with
    its opcode, target, args and kwargs. *)
Record Node := mkNode {
  name : node_id;
  op : string;
  target : OpOverload;
  args : value;
  kwargs : value
}.

(** Exceptions. The two RuntimeErrors of [run_op_prop] carry what their
    messages interpolate. [RuleError] is any [Exception] raised inside an
    externally supplied rule. *)
Inductive exn :=
| NotImplementedError (op_call : OpOverload)
| RuntimeError_propagation_failed (op_call : OpOverload) (schema : OpSchema) (e : exn)
| RuntimeError_failed_reason (op_call : OpOverload) (schema : OpSchema) (reason : string)
| ValueError (node_op : string)
| KeyError (key : string)
| IndexError
| AttributeError (attr : string)
| UnboundLocalError (var : string)
| AssertionError (msg : string)
| RuleError (msg : string)
| GraphBuildError (msg : string).

(** What a rule hands back: it raises, or it returns an OutputSharding
    together with the objects it created for it ([fresh] is appended to the
    store before the result object itself is allocated). *)
Inductive rule_outcome :=
| RuleRaises (e : exn)
| RuleReturns (fresh : list obj) (res : OutputSharding).

(** A rule reads the schema and the objects it references. *)
Definition rule := OpSchema -> list obj -> rule_outcome.

(** [self.op_to_rules]. *)
Definition registry := OpOverload -> option rule.

(** A traced graph as [get_isolated_graphmodule] returns it: the nodes in
    construction order and the [meta] dictionaries the tracer filled in. *)
Record GraphModule := mkGraphModule {
  nodes : list Node;
  init_meta : gmap string node_meta
}.

(** ** State *)

(** [heap]: the object store; [metas]: [meta] of the nodes of the current
    trial graph; [cached_prop_results]: the cache of [_CachingPropagator];
    [rule_calls] and [graphs_built] are ghost counters recording every rule
    invocation and every trial graph built. *)
Record State := mkState {
  heap : list obj;
  metas : gmap string node_meta;
  cached_prop_results : list (OpSchema * loc);
  rule_calls : list (OpOverload * OpSchema);
  graphs_built : nat
}.

Definition set_heap (h : list obj) (s : State) : State :=
  mkState h (metas s) (cached_prop_results s) (rule_calls s) (graphs_built s).

Definition set_metas (m : gmap string node_meta) (s : State) : State :=
  mkState (heap s) m (cached_prop_results s) (rule_calls s) (graphs_built s).

Definition set_cache (c : list (OpSchema * loc)) (s : State) : State :=
  mkState (heap s) (metas s) c (rule_calls s) (graphs_built s).

Definition log_rule_call (o : OpOverload) (sch : OpSchema) (s : State) : State :=
  mkState (heap s) (metas s) (cached_prop_results s)
          (rule_calls s ++ [(o, sch)]) (graphs_built s).

Definition count_graph (s : State) : State :=
  mkState (heap s) (metas s) (cached_prop_results s) (rule_calls s)
          (S (graphs_built s)).

(** ** The monad *)

Inductive result (A : Type) :=
| Ok (a : A)
| Raise (e : exn).
Arguments Ok {A} a.
Arguments Raise {A} e.

Definition M (A : Type) : Type := State -> result A * State.

Definition ret {A} (a : A) : M A := fun s => (Ok a, s).
Definition raise {A} (e : exn) : M A := fun s => (Raise e, s).
Definition bind {A B} (m : M A) (k : A -> M B) : M B :=
  fun s => match m s with
           | (Ok a, s') => k a s'
           | (Raise e, s') => (Raise e, s')
           end.
Definition get : M State := fun s => (Ok s, s).
Definition modify (f : State -> State) : M unit := fun s => (Ok tt, f s).

(** [try: m except Exception as e: raise h(e) from e]. *)
Definition try_except {A} (m : M A) (h : exn -> exn) : M A :=
  fun s => match m s with
           | (Ok a, s') => (Ok a, s')
           | (Raise e, s') => (Raise (h e), s')
           end.

Declare Scope monad_scope.
Delimit Scope monad_scope with monad.
Notation "x <- c1 ;; c2" := (bind c1 (fun x => c2))
  (at level 100, c1 at next level, right associativity) : monad_scope.
Notation "c1 ;;; c2" := (bind c1 (fun _ => c2))
  (at level 100, right associativity) : monad_scope.
Open Scope monad_scope.

Definition from_option {A} (o : option A) (e : exn) : M A :=
  match o with
  | Some a => ret a
  | None => raise e
  end.

(** Left-to-right traversal of a list. *)
Definition mapM {A B} (f : A -> M B) : list A -> M (list B) :=
  fix go (l : list A) : M (list B) :=
    match l with
    | [] => ret []
    | x :: xs =>
        y <- f x ;;
        ys <- go xs ;;
        ret (y :: ys)
    end.

(** ** Store primitives *)

(** Object construction: the new object gets the next free address. *)
Definition alloc (o : obj) : M loc :=
  fun s => (Ok (length (heap s)), set_heap (heap s ++ [o]) s).

(** [n.meta] of a node; a node the tracer left without entries has an
    empty dictionary. *)
Definition meta_of (m : gmap string node_meta) (n : node_id) : node_meta :=
  default (mkNodeMeta None None) (m !! n).

(** [node.meta["sharding"] = v]. *)
Definition set_meta_sharding (n : node_id) (v : value) : M unit :=
  modify (fun s =>
    set_metas (<[n := mkNodeMeta (Some v) (meta_tensor_meta (meta_of (metas s) n))]> (metas s)) s).

(** Attribute read on an object expected to be an OutputSharding. *)
Definition read_sharding (l : loc) (attr : string) : M OutputSharding :=
  s <- get ;;
  match heap s !! l with
  | Some (OOutputSharding o) => ret o
  | _ => raise (AttributeError attr)
  end.

Definition with_output_spec (v : value) (o : OutputSharding) : OutputSharding :=
  mkOutputSharding v (schema_suggestions o) (failed_reason o) (extra_tensor_meta o).

Definition with_schema_suggestions (l : option (list OpSchema)) (o : OutputSharding)
    : OutputSharding :=
  mkOutputSharding (output_spec o) l (failed_reason o) (extra_tensor_meta o).

Definition with_extra_tensor_meta (tm : TensorMetadata) (o : OutputSharding)
    : OutputSharding :=
  mkOutputSharding (output_spec o) (schema_suggestions o) (failed_reason o) (Some tm).

Definition with_tensor_meta (tm : TensorMetadata) (d : DTensorSpec) : DTensorSpec :=
  mkDTensorSpec (placements d) (Some tm).

(** Attribute store on the OutputSharding at [l]: the object is updated in
    place, every alias sees the new field. *)
Definition setattr_sharding (l : loc) (attr : string)
    (f : OutputSharding -> OutputSharding) : M unit :=
  o <- read_sharding l attr ;;
  modify (fun s => set_heap (<[l := OOutputSharding (f o)]> (heap s)) s).

(** [spec.tensor_meta = tm] on whatever [spec] is. *)
Definition setattr_tensor_meta (spec : value) (tm : TensorMetadata) : M unit :=
  match spec with
  | VSpec l =>
      s <- get ;;
      match heap s !! l with
      | Some (ODTensorSpec d) =>
          modify (set_heap (<[l := ODTensorSpec (with_tensor_meta tm d)]> (heap s)))
      | _ => raise (AttributeError "tensor_meta")
      end
  | VSharding l => setattr_sharding l "tensor_meta" (with_extra_tensor_meta tm)
  | _ => raise (AttributeError "tensor_meta")
  end.

(** ** pytree *)

Definition isinstance_Node (v : value) : bool :=
  match v with VNode _ => true | _ => false end.

Definition isinstance_DTensorSpec (v : value) : bool :=
  match v with VSpec _ => true | _ => false end.

(** Modelled from the spec: [tree_map_only(ty, fn, pytree)] of
    torch.utils._pytree. Lists/tuples and dicts are traversed left to
    right, [fn] is applied to the leaves of type [ty], every other leaf is
    kept. *)
Fixpoint tree_map_only (ty : value -> bool) (fn : value -> M value) (v : value) : M value :=
  match v with
  | VList vs =>
      vs' <- mapM (tree_map_only ty fn) vs ;;
      ret (VList vs')
  | VDict kvs =>
      kvs' <- mapM (fun kv => y <- tree_map_only ty fn (snd kv) ;; ret (fst kv, y)) kvs ;;
      ret (VDict kvs')
  | _ => if ty v then fn v else ret v
  end.

(** Modelled from the spec: [tree_flatten(pytree)[0]] of
    torch.utils._pytree, the leaves in argument order. *)
Fixpoint tree_flatten (v : value) : list value :=
  match v with
  | VList vs => flat_map tree_flatten vs
  | VDict kvs => flat_map (fun kv => tree_flatten (snd kv)) kvs
  | _ => [v]
  end.

(** ** The propagator *)

(** [unwrap_spec_from_node]: the right-hand side [n.meta["tensor_meta"]] is
    evaluated before the attribute store. *)
Definition unwrap_spec_from_node (n : value) : M value :=
  match n with
  | VNode nm =>
      s <- get ;;
      spec <- from_option (meta_sharding (meta_of (metas s) nm)) (KeyError "sharding") ;;
      tm <- from_option (meta_tensor_meta (meta_of (metas s) nm)) (KeyError "tensor_meta") ;;
      setattr_tensor_meta spec tm ;;;
      ret spec
  | _ => raise (AttributeError "meta")
  end.

(** [register_sharding_prop_rule]: a dictionary store, the last
    registration wins. *)
Global Instance OpOverload_eq_dec : EqDecision OpOverload.
Proof. solve_decision. Defined.

Definition register_sharding_prop_rule
    (op_to_rules : registry) (op_overload : OpOverload) (rule_func : rule) : registry :=
  fun o => if decide (o = op_overload) then Some rule_func else op_to_rules o.

(** A call [sharding_prop_func(schema)]: logged, and on return the objects
    the rule created and its result are allocated. Rules are taken to
    build their result anew; a rule that hands back an object already in
    the store is outside this model, and no statement below is about where
    a rule's result lives. *)
Definition call_rule (op_call : OpOverload) (f : rule) (schema : OpSchema) : M loc :=
  modify (log_rule_call op_call schema) ;;;
  s <- get ;;
  match f schema (heap s) with
  | RuleRaises e => raise e
  | RuleReturns fresh res =>
      modify (set_heap (heap s ++ fresh)) ;;;
      alloc (OOutputSharding res)
  end.

Definition is_None (v : value) : bool :=
  match v with VNone => true | _ => false end.

(** [ShardingPropagator.run_op_prop]. The diagnostic [print] calls are not
    modelled. *)
Definition run_op_prop (op_to_rules : registry) (op_node : Node) : M loc :=
  let op_call := target op_node in
  match op_to_rules op_call with
  | None => raise (NotImplementedError op_call)
  | Some sharding_prop_func =>
      args_schema <- tree_map_only isinstance_Node unwrap_spec_from_node (args op_node) ;;
      kwargs_schema <- tree_map_only isinstance_Node unwrap_spec_from_node (kwargs op_node) ;;
      let op_schema := mkOpSchema (_schema op_call) args_schema kwargs_schema in
      output_sharding <-
        try_except (call_rule op_call sharding_prop_func op_schema)
                   (RuntimeError_propagation_failed op_call op_schema) ;;
      set_meta_sharding (name op_node) (VSharding output_sharding) ;;;
      o <- read_sharding output_sharding "output_spec" ;;
      (if is_None (output_spec o) then
         match schema_suggestions o with
         | None =>
             match failed_reason o with
             | Some reason => raise (RuntimeError_failed_reason op_call op_schema reason)
             | None =>
                 setattr_sharding output_sharding "schema_suggestions"
                   (with_schema_suggestions (Some [op_schema]))
             end
         | Some suggestions =>
             suggested_input_schema <- from_option (suggestions !! 0%nat) IndexError ;;
             propagation_res <- call_rule op_call sharding_prop_func suggested_input_schema ;;
             r <- read_sharding propagation_res "output_spec" ;;
             setattr_sharding output_sharding "output_spec"
               (with_output_spec (output_spec r))
         end
       else
         setattr_sharding output_sharding "schema_suggestions"
           (with_schema_suggestions (Some [op_schema]))) ;;;
      ret output_sharding
  end.

(** Modelled from the spec: [Node.all_input_nodes] of torch.fx, every node
    the node references in its args and kwargs, each once, in order of
    first appearance. *)
Fixpoint dedup_nodes (seen : list node_id) (l : list value) : list value :=
  match l with
  | [] => []
  | VNode n :: xs =>
      if decide (n ∈ seen) then dedup_nodes seen xs
      else VNode n :: dedup_nodes (n :: seen) xs
  | _ :: xs => dedup_nodes seen xs
  end.

Definition all_input_nodes (node : Node) : list value :=
  dedup_nodes [] (tree_flatten (args node) ++ tree_flatten (kwargs node)).

(** The local variables of the loop of [run_graph_prop]; [output_spec] is
    unbound until an output node has been walked. *)
Record locals := mkLocals {
  placeholder_idx : nat;
  l_output_sharding : option loc;
  l_output_spec : option value
}.

(** One iteration of [for node in op_graph.graph.nodes]. *)
Definition graph_step (op_to_rules : registry) (flat_args_sharding : list value)
    (lv : locals) (node : Node) : M locals :=
  if decide (op node = "placeholder") then
    a <- from_option (flat_args_sharding !! placeholder_idx lv) IndexError ;;
    (if isinstance_DTensorSpec a then set_meta_sharding (name node) a else ret tt) ;;;
    ret (mkLocals (S (placeholder_idx lv)) (l_output_sharding lv) (l_output_spec lv))
  else if decide (op node = "call_function") then
    output_sharding <- run_op_prop op_to_rules node ;;
    ret (mkLocals (placeholder_idx lv) (Some output_sharding) (l_output_spec lv))
  else if decide (op node = "output") then
    let output_nodes := all_input_nodes node in
    output_spec <- tree_map_only isinstance_Node unwrap_spec_from_node (VList output_nodes) ;;
    ret (mkLocals (placeholder_idx lv) (l_output_sharding lv) (Some output_spec))
  else raise (ValueError (op node)).

Fixpoint graph_loop (op_to_rules : registry) (flat_args_sharding : list value)
    (ns : list Node) (lv : locals) : M locals :=
  match ns with
  | [] => ret lv
  | node :: rest =>
      lv' <- graph_step op_to_rules flat_args_sharding lv node ;;
      graph_loop op_to_rules flat_args_sharding rest lv'
  end.

(** [ShardingPropagator.run_graph_prop]. In the [return] the positional
    argument [output_spec] is evaluated before the keyword argument. *)
Definition run_graph_prop (op_to_rules : registry) (op_graph : list Node)
    (flat_args_sharding : list value) : M loc :=
  lv <- graph_loop op_to_rules flat_args_sharding op_graph (mkLocals 0 None None) ;;
  output_spec <- from_option (l_output_spec lv) (UnboundLocalError "output_spec") ;;
  output_sharding <- from_option (l_output_sharding lv) (AttributeError "schema_suggestions") ;;
  o <- read_sharding output_sharding "schema_suggestions" ;;
  alloc (OOutputSharding (mkOutputSharding output_spec (schema_suggestions o) None None)).

(** [_rebuild_tensor_from_dtensor]. *)
Definition _rebuild_tensor_from_dtensor (arg : value) : M value :=
  s <- get ;;
  match arg with
  | VSpec l =>
      match heap s !! l with
      | Some (ODTensorSpec d) =>
          match tensor_meta d with
          | Some tm => ret (VFake tm)
          | None => raise (AssertionError "")
          end
      | _ => raise (AssertionError "must be DTensorSpec")
      end
  | _ => raise (AssertionError "must be DTensorSpec")
  end.

(** [ShardingPropagator.propagate]. [get_isolated_graphmodule] belongs to
    torch.fx and is a parameter: it fails or returns a traced graph.
    [_DEBUG_VERBOSE] is the constant [False]. *)
Definition propagate
    (get_isolated_graphmodule : OpOverload -> value -> value -> exn + GraphModule)
    (op_to_rules : registry) (op_call : OpOverload) (op_schema : OpSchema) : M loc :=
  let args_schema := args_schema op_schema in
  let kwargs_schema := kwargs_schema op_schema in
  fake_args <- tree_map_only isinstance_DTensorSpec _rebuild_tensor_from_dtensor args_schema ;;
  fake_kwargs <- tree_map_only isinstance_DTensorSpec _rebuild_tensor_from_dtensor kwargs_schema ;;
  match get_isolated_graphmodule op_call fake_args fake_kwargs with
  | inl e => raise e
  | inr op_graph =>
      modify (fun s => count_graph (set_metas (init_meta op_graph) s)) ;;;
      let flat_args_sharding := tree_flatten (VList [args_schema; kwargs_schema]) in
      run_graph_prop op_to_rules (nodes op_graph) flat_args_sharding
  end.

(** ** The caching propagator *)

Global Instance Placement_eq_dec : EqDecision Placement.
Proof. solve_decision. Defined.
Global Instance TensorMetadata_eq_dec : EqDecision TensorMetadata.
Proof. solve_decision. Defined.
Global Instance DTensorSpec_eq_dec : EqDecision DTensorSpec.
Proof. solve_decision. Defined.

(** Modelled from the spec: [DTensorSpec.__eq__] (op_schema.py) compares two
    operand specs structurally, field by field; any other pair of objects is
    compared by identity. *)
Definition spec_eqb (h : list obj) (l1 l2 : loc) : bool :=
  match h !! l1, h !! l2 with
  | Some (ODTensorSpec a), Some (ODTensorSpec b) => bool_decide (a = b)
  | _, _ => bool_decide (l1 = l2)
  end.

(** Pointwise comparison of two sequences of equal length. *)
Definition list_eqb {A} (f : A -> A -> bool) : list A -> list A -> bool :=
  fix go (l1 l2 : list A) : bool :=
    match l1, l2 with
    | [], [] => true
    | x :: xs, y :: ys => f x y && go xs ys
    | _, _ => false
    end.

(** Modelled from the spec: equality of the argument trees of two schemas,
    container by container and leaf by leaf. *)
Fixpoint value_eqb (h : list obj) (v1 v2 : value) : bool :=
  match v1, v2 with
  | VNone, VNone => true
  | VInt a, VInt b => bool_decide (a = b)
  | VSpec a, VSpec b => spec_eqb h a b
  | VSharding a, VSharding b => bool_decide (a = b)
  | VNode a, VNode b => bool_decide (a = b)
  | VFake a, VFake b => bool_decide (a = b)
  | VList a, VList b => list_eqb (value_eqb h) a b
  | VDict a, VDict b =>
      list_eqb (fun kv1 kv2 =>
                  bool_decide (fst kv1 = fst kv2) && value_eqb h (snd kv1) (snd kv2)) a b
  | _, _ => false
  end.

(** Modelled from the spec: [OpSchema.__eq__] (op_schema.py); two schemas
    are equal iff their signature and operand-spec trees are structurally
    equal. *)
Definition schema_eqb (h : list obj) (a b : OpSchema) : bool :=
  bool_decide (func_schema a = func_schema b)
  && value_eqb h (args_schema a) (args_schema b)
  && value_eqb h (kwargs_schema a) (kwargs_schema b).

(** [op_schema in d] and [d[op_schema]] on a dictionary keyed by schemas. *)
Fixpoint cache_lookup (h : list obj) (q : OpSchema) (c : list (OpSchema * loc)) : option loc :=
  match c with
  | [] => None
  | (k, v) :: rest => if schema_eqb h k q then Some v else cache_lookup h q rest
  end.

(** [d[op_schema] = v]: an equal key keeps its place and gets the new
    value, a new key is added. *)
Fixpoint cache_store (h : list obj) (q : OpSchema) (v : loc) (c : list (OpSchema * loc))
    : list (OpSchema * loc) :=
  match c with
  | [] => [(q, v)]
  | (k, v') :: rest =>
      if schema_eqb h k q then (k, v) :: rest else (k, v') :: cache_store h q v rest
  end.

Module CachingPropagator.

(** [_CachingPropagator.propagate]. *)
Definition propagate
    (get_isolated_graphmodule : OpOverload -> value -> value -> exn + GraphModule)
    (op_to_rules : registry) (op_call : OpOverload) (op_schema : OpSchema) : M loc :=
  s <- get ;;
  match cache_lookup (heap s) op_schema (cached_prop_results s) with
  | Some cached => ret cached
  | None =>
      output_sharding <- propagate get_isolated_graphmodule op_to_rules op_call op_schema ;;
      modify (fun s' =>
        set_cache (cache_store (heap s') op_schema output_sharding (cached_prop_results s')) s') ;;;
      ret output_sharding
  end.

End CachingPropagator.

(** ** Concrete operators, rules and graphs used as test inputs *)

Definition aten_add : OpOverload := mkOpOverload "aten.add.Tensor" "add(Tensor, Tensor) -> Tensor".

Definition tm0 : TensorMetadata := mkTensorMetadata [4; 2] [2; 1] "float32" false.

Definition spec_shard0 : DTensorSpec := mkDTensorSpec [Shard 0] (Some tm0).
Definition spec_repl : DTensorSpec := mkDTensorSpec [Replicate] (Some tm0).

(** The graph of a one-operand call: placeholder, call_function, output. *)
Definition unary_graph (tgt : OpOverload) : list Node :=
  [ mkNode "arg0" "placeholder" tgt (VList []) (VDict []);
    mkNode "call" "call_function" tgt (VList [VNode "arg0"]) (VDict []);
    mkNode "output" "output" tgt (VList [VNode "call"]) (VDict []) ].

Definition unary_meta (t : TensorMetadata) : gmap string node_meta :=
  <["arg0" := mkNodeMeta None (Some t)]>
  (<["call" := mkNodeMeta None (Some t)]> ∅).

(** A rule that supports every input: the output has the placements of
    the first operand. *)
Definition rule_same : rule := fun schema h =>
  match args_schema schema with
  | VList (VSpec l :: _) => RuleReturns [] (mkOutputSharding (VSpec l) None None None)
  | _ => RuleReturns [] (mkOutputSharding VNone None (Some "no tensor operand") None)
  end.

(** A rule that never has a sharding to offer: no output spec, no
    suggestion, no failure reason (a scalar result). *)
Definition rule_scalar : rule := fun schema h =>
  RuleReturns [] (mkOutputSharding VNone None None None).

(** A rule that declines with a reason. *)
Definition rule_declines : rule := fun schema h =>
  RuleReturns [] (mkOutputSharding VNone None (Some "unsupported placements") None).

(** A rule whose list of suggestions is empty. *)
Definition rule_empty_suggestions : rule := fun schema h =>
  RuleReturns [] (mkOutputSharding VNone (Some []) None None).

(** A rule that raises. *)
Definition rule_raises : rule := fun schema h => RuleRaises (RuleError "boom").

Definition placements_at (h : list obj) (v : value) : option (list Placement) :=
  match v with
  | VSpec l =>
      match h !! l with
      | Some (ODTensorSpec d) => Some (placements d)
      | _ => None
      end
  | _ => None
  end.

(** The one-operand rule of a sharded-only operator: a [Shard 0] operand
    is supported, any other operand gets the suggestion to reshard it, for
    which the rule creates a new spec. *)
Definition rule_reshard : rule := fun schema h =>
  match args_schema schema with
  | VList [a] =>
      match placements_at h a with
      | Some [Shard 0] => RuleReturns [] (mkOutputSharding a None None None)
      | Some _ =>
          RuleReturns [ODTensorSpec (mkDTensorSpec [Shard 0] None)]
            (mkOutputSharding VNone
               (Some [mkOpSchema (func_schema schema) (VList [VSpec (length h)])
                                 (kwargs_schema schema)])
               None None)
      | None => RuleReturns [] (mkOutputSharding VNone None (Some "no tensor operand") None)
      end
  | _ => RuleReturns [] (mkOutputSharding VNone None (Some "arity") None)
  end.

(** As [rule_reshard], but the rule raises on the schema it suggested. *)
Definition rule_raises_on_retry : rule := fun schema h =>
  match args_schema schema with
  | VList [a] =>
      match placements_at h a with
      | Some [Shard 0] => RuleRaises (RuleError "boom")
      | _ =>
          RuleReturns [ODTensorSpec (mkDTensorSpec [Shard 0] None)]
            (mkOutputSharding VNone
               (Some [mkOpSchema (func_schema schema) (VList [VSpec (length h)])
                                 (kwargs_schema schema)])
               None None)
      end
  | _ => RuleRaises (RuleError "arity")
  end.

Definition no_rules : registry := fun _ => None.

Definition only (r : rule) : registry :=
  register_sharding_prop_rule no_rules aten_add r.

(** The call node of [unary_graph] and the state in which the walk
    reaches it: one caller spec in the store, attached to the
    placeholder. *)
Definition call_node : Node :=
  mkNode "call" "call_function" aten_add (VList [VNode "arg0"]) (VDict []).

Definition at_call (d : DTensorSpec) : State :=
  mkState [ODTensorSpec d]
          (<["arg0" := mkNodeMeta (Some (VSpec 0%nat)) (Some tm0)]> (unary_meta tm0))
          [] [] 0.

(** The state in which [run_graph_prop] starts on [unary_graph]. *)
Definition at_start (d : DTensorSpec) : State :=
  mkState [ODTensorSpec d] (unary_meta tm0) [] [] 0.

(** A tracer that decomposes every one-operand call into [unary_graph]
    over a given primitive. *)
Definition trace_unary (prim : OpOverload)
    : OpOverload -> value -> value -> exn + GraphModule :=
  fun op_call fake_args fake_kwargs =>
    match fake_args with
    | VList [VFake t] => inr (mkGraphModule (unary_graph prim) (unary_meta t))
    | _ => inl (GraphBuildError "arity")
    end.

Definition aten_relu : OpOverload := mkOpOverload "aten.relu.default" "relu(Tensor) -> Tensor".

Definition unary_schema (o : OpOverload) : OpSchema :=
  mkOpSchema (_schema o) (VList [VSpec 0%nat]) (VDict []).

(** A graph that hands its operand through: placeholder and output. *)
Definition identity_graph : list Node :=
  [ mkNode "arg0" "placeholder" aten_add (VList []) (VDict []);
    mkNode "output" "output" aten_add (VList [VNode "arg0"]) (VDict []) ].

(** Two caller specs with the same contents, and the schemas over them. *)
Definition two_specs : State :=
  mkState [ODTensorSpec spec_shard0; ODTensorSpec spec_shard0] ∅ [] [] 0.

Definition unary_schema_at (l : loc) : OpSchema :=
  mkOpSchema (_schema aten_add) (VList [VSpec l]) (VDict []).

(** A store that already holds a result object with a failure reason. *)
Definition with_old_result : State :=
  mkState [ODTensorSpec spec_shard0;
           OOutputSharding (mkOutputSharding VNone None (Some "old") None)]
          (unary_meta tm0) [] [] 0.

(** Two placeholders, the second fed a plain value. *)
Definition two_placeholders : list Node :=
  [ mkNode "arg0" "placeholder" aten_add (VList []) (VDict []);
    mkNode "arg1" "placeholder" aten_add (VList []) (VDict []) ].

(** ** Vocabulary of the statements *)

(** A state predicate that no run of [m] can break, whether it returns or
    raises. *)
Definition preserves {A} (P : State -> Prop) (m : M A) : Prop :=
  forall s r s', m s = (r, s') -> P s -> P s'.

(** Number of placeholder nodes of a graph. *)
Definition count_placeholders (ns : list Node) : nat :=
  length (filter (fun n => op n = "placeholder") ns).

(** The schema [run_op_prop] builds for a node from its unwrapped
    arguments. *)
Definition node_schema (node : Node) (a1 a2 : value) : OpSchema :=
  mkOpSchema (_schema (target node)) a1 a2.

(** [run_op_prop] up to and including a first rule invocation that
    returns: the state after [op_node.meta["sharding"] = output_sharding]. *)
Definition after_first_call (node : Node) (schema : OpSchema)
    (fresh : list obj) (res : OutputSharding) (s : State) : State :=
  let s3 := set_heap ((heap s ++ fresh) ++ [OOutputSharding res])
                     (log_rule_call (target node) schema s) in
  set_metas (<[name node := mkNodeMeta (Some (VSharding (length (heap s ++ fresh))))
                              (meta_tensor_meta (meta_of (metas s3) (name node)))]> (metas s3)) s3.

(** The schema suggestions of the object at [l], if it is an
    OutputSharding. *)
Definition suggestions_at (h : list obj) (l : loc) : option (option (list OpSchema)) :=
  match h !! l with
  | Some (OOutputSharding o) => Some (schema_suggestions o)
  | _ => None
  end.

Definition no_call_function (ns : list Node) : Prop :=
  Forall (fun n => op n <> "call_function") ns.

(** Every DTensorSpec of [s0] is still there in [s], with the placements
    it had. *)
Definition placements_kept (s0 s : State) : Prop :=
  forall l d, heap s0 !! l = Some (ODTensorSpec d) ->
    exists d', heap s !! l = Some (ODTensorSpec d') /\ placements d' = placements d.

(** Number of call_function nodes of a graph. *)
Definition count_call_function (ns : list Node) : nat :=
  length (filter (fun n => op n = "call_function") ns).

(** Between [s] and [s'] at most [n] rule invocations were logged, all of
    them appended to the log of [s]. *)
Definition calls_between (s s' : State) (n : nat) : Prop :=
  exists extra, rule_calls s' = rule_calls s ++ extra /\ (length extra <= n)%nat.

(** No run of [m] invokes rules more than [n] times. *)
Definition invokes_at_most {A} (n : nat) (m : M A) : Prop :=
  forall s r s', m s = (r, s') -> calls_between s s' n.

(** Every DTensorSpec leaf of [v] refers to a spec that has its tensor
    metadata. *)
Definition has_tensor_meta (h : list obj) (leaf : value) : Prop :=
  match leaf with
  | VSpec l => exists d tm, h !! l = Some (ODTensorSpec d) /\ tensor_meta d = Some tm
  | _ => True
  end.

Definition all_have_tensor_meta (h : list obj) (v : value) : Prop :=
  Forall (has_tensor_meta h) (tree_flatten v).

(** The object at [l] is an OutputSharding with schema suggestions. *)
Definition has_suggestions (h : list obj) (l : loc) : Prop :=
  exists o, h !! l = Some (OOutputSharding o) /\ is_Some (schema_suggestions o).

(** The loop invariant of the walk: the last result has suggestions, and
    [output_spec], once bound, is a list. *)
Definition walk_invariant (lv : locals) (t : State) : Prop :=
  (forall l1, l_output_sharding lv = Some l1 -> has_suggestions (heap t) l1) /\
  (forall v, l_output_spec lv = Some v -> exists vs, v = VList vs).

(** Every exception [m] can raise satisfies [Q]. *)
Definition raises_only {A} (Q : exn -> Prop) (m : M A) : Prop :=
  forall s e s', m s = (Raise e, s') -> Q e.

Definition is_AssertionError (e : exn) : Prop := exists msg, e = AssertionError msg.

(** The argument tree with every node replaced by what the node carries
    under [meta["sharding"]]. *)
Fixpoint subst_sharding (m : gmap string node_meta) (v : value) : value :=
  match v with
  | VNode n => default VNone (meta_sharding (meta_of m n))
  | VList vs => VList (map (subst_sharding m) vs)
  | VDict kvs => VDict (map (fun kv => (fst kv, subst_sharding m (snd kv))) kvs)
  | _ => v
  end.

(** No key of the cache [c] is equal to the schema [q]. *)
Definition no_key (h : list obj) (q : OpSchema) (c : list (OpSchema * loc)) : Prop :=
  Forall (fun kv => schema_eqb h kv.1 q = false) c.

(** * Reasoning principles *)

(** ** Inversion of monadic computations *)

Lemma bind_inv {A B} (m : M A) (k : A -> M B) s r s' :
  bind m k s = (r, s') ->
  (exists a s1, m s = (Ok a, s1) /\ k a s1 = (r, s')) \/
  (exists e, m s = (Raise e, s') /\ r = Raise e).
Proof.
  unfold bind. destruct (m s) as [[a|e] s1]; intros H.
  - left. eauto.
  - right. inversion H; subst. eauto.
Qed.

Lemma bind_ok_inv {A B} (m : M A) (k : A -> M B) s b s' :
  bind m k s = (Ok b, s') ->
  exists a s1, m s = (Ok a, s1) /\ k a s1 = (Ok b, s').
Proof.
  intros H. apply bind_inv in H as [H|(e & _ & H)]; [done | discriminate].
Qed.

Lemma bind_ok {A B} (m : M A) (k : A -> M B) s a s1 :
  m s = (Ok a, s1) -> bind m k s = k a s1.
Proof. unfold bind. by intros ->. Qed.

Lemma bind_raise {A B} (m : M A) (k : A -> M B) s e s1 :
  m s = (Raise e, s1) -> bind m k s = (Raise e, s1).
Proof. unfold bind. by intros ->. Qed.

(** ** Induction on values *)

Section value_induction.
Variable P : value -> Prop.
Hypothesis HNone : P VNone.
Hypothesis HInt : forall z, P (VInt z).
Hypothesis HSpec : forall l, P (VSpec l).
Hypothesis HSharding : forall l, P (VSharding l).
Hypothesis HNode : forall n, P (VNode n).
Hypothesis HFake : forall t, P (VFake t).
Hypothesis HList : forall vs, Forall P vs -> P (VList vs).
Hypothesis HDict : forall kvs, Forall (fun kv => P (snd kv)) kvs -> P (VDict kvs).

Fixpoint value_rect' (v : value) : P v :=
  match v with
  | VNone => HNone
  | VInt z => HInt z
  | VSpec l => HSpec l
  | VSharding l => HSharding l
  | VNode n => HNode n
  | VFake t => HFake t
  | VList vs =>
      HList vs ((fix go (l : list value) : Forall P l :=
                   match l with
                   | [] => Forall_nil_2 P
                   | x :: xs => Forall_cons_2 P x xs (value_rect' x) (go xs)
                   end) vs)
  | VDict kvs =>
      HDict kvs ((fix go (l : list (string * value)) : Forall (fun kv => P (snd kv)) l :=
                    match l with
                    | [] => Forall_nil_2 _
                    | kv :: xs => Forall_cons_2 _ kv xs (value_rect' (snd kv)) (go xs)
                    end) kvs)
  end.
End value_induction.

(** ** Preservation of state predicates *)

Section preservation.
Variable P : State -> Prop.

Lemma preserves_ret {A} (a : A) : preserves P (ret a).
Proof. intros s r s' H. by inversion H. Qed.

Lemma preserves_raise {A} e : preserves P (@raise A e).
Proof. intros s r s' H. by inversion H. Qed.

Lemma preserves_get : preserves P get.
Proof. intros s r s' H. by inversion H. Qed.

Lemma preserves_from_option {A} (o : option A) e : preserves P (from_option o e).
Proof. destruct o; [apply preserves_ret | apply preserves_raise]. Qed.

Lemma preserves_modify f : (forall s, P s -> P (f s)) -> preserves P (modify f).
Proof. intros Hf s r s' H. inversion H; subst. apply Hf. Qed.

Lemma preserves_bind {A B} (m : M A) (k : A -> M B) :
  preserves P m -> (forall a, preserves P (k a)) -> preserves P (bind m k).
Proof.
  intros Hm Hk s r s' H HP.
  apply bind_inv in H as [(a & s1 & H1 & H2)|(e & H1 & _)].
  - eapply Hk; [exact H2 | eapply Hm; eauto].
  - eapply Hm; eauto.
Qed.

Lemma preserves_try_except {A} (m : M A) h :
  preserves P m -> preserves P (try_except m h).
Proof.
  intros Hm s r s' H HP. unfold try_except in H.
  destruct (m s) as [[a|e] s1] eqn:E; inversion H; subst; eapply Hm; eauto.
Qed.

Lemma preserves_mapM {A B} (f : A -> M B) (l : list A) :
  Forall (fun x => preserves P (f x)) l -> preserves P (mapM f l).
Proof.
  induction 1 as [|x xs Hx _ IH]; simpl.
  - apply preserves_ret.
  - apply preserves_bind; [exact Hx | intros y].
    apply preserves_bind; [exact IH | intros ys]. apply preserves_ret.
Qed.

Lemma preserves_tree_map_only ty fn :
  (forall v, preserves P (fn v)) ->
  forall v, preserves P (tree_map_only ty fn v).
Proof.
  intros Hfn v.
  induction v as [| | | | | |vs IH|kvs IH] using value_rect'; simpl;
    try (destruct (ty _); [apply Hfn | apply preserves_ret]).
  - apply preserves_bind; [by apply preserves_mapM | intros; apply preserves_ret].
  - apply preserves_bind; [| intros; apply preserves_ret].
    apply preserves_mapM. eapply Forall_impl; [exact IH|].
    intros kv Hkv. simpl in Hkv.
    apply preserves_bind; [exact Hkv | intros; apply preserves_ret].
Qed.
End preservation.

(** ** What the walk preserves *)

(** Predicates stable under the two attribute stores of
    [unwrap_spec_from_node]. *)
Section unwrap_preservation.
Variable P : State -> Prop.
Hypothesis P_spec : forall s l d tm,
  heap s !! l = Some (ODTensorSpec d) -> P s ->
  P (set_heap (<[l := ODTensorSpec (with_tensor_meta tm d)]> (heap s)) s).
Hypothesis P_extra : forall s l o tm,
  heap s !! l = Some (OOutputSharding o) -> P s ->
  P (set_heap (<[l := OOutputSharding (with_extra_tensor_meta tm o)]> (heap s)) s).

Lemma preserves_setattr_tensor_meta spec tm : preserves P (setattr_tensor_meta spec tm).
Proof.
  intros s r s' H HP. destruct spec; simpl in H; try (by inversion H; subst).
  - unfold bind, get, modify, raise in H.
    destruct (heap s !! l) as [[d|o]|] eqn:E; inversion H; subst; auto.
  - unfold setattr_sharding, read_sharding, bind, get, modify, raise, ret in H.
    destruct (heap s !! l) as [[d|o]|] eqn:E; inversion H; subst; auto.
Qed.

Lemma preserves_unwrap_spec_from_node n : preserves P (unwrap_spec_from_node n).
Proof.
  destruct n; simpl; try apply preserves_raise.
  apply preserves_bind; [apply preserves_get | intros s0].
  apply preserves_bind; [apply preserves_from_option | intros spec].
  apply preserves_bind; [apply preserves_from_option | intros tm].
  apply preserves_bind; [apply preserves_setattr_tensor_meta | intros _].
  apply preserves_ret.
Qed.

Lemma preserves_unwrap_tree v :
  preserves P (tree_map_only isinstance_Node unwrap_spec_from_node v).
Proof. apply preserves_tree_map_only, preserves_unwrap_spec_from_node. Qed.
End unwrap_preservation.

(** Predicates stable under every store of the graph walk. *)
Section walk_preservation.
Variable P : State -> Prop.
Hypothesis P_spec : forall s l d tm,
  heap s !! l = Some (ODTensorSpec d) -> P s ->
  P (set_heap (<[l := ODTensorSpec (with_tensor_meta tm d)]> (heap s)) s).
Hypothesis P_sharding : forall s l o f,
  heap s !! l = Some (OOutputSharding o) -> P s ->
  P (set_heap (<[l := OOutputSharding (f o)]> (heap s)) s).
Hypothesis P_append : forall s objs, P s -> P (set_heap (heap s ++ objs) s).
Hypothesis P_metas : forall s m, P s -> P (set_metas m s).
Hypothesis P_log : forall s o sch, P s -> P (log_rule_call o sch s).

Lemma preserves_walk_unwrap v :
  preserves P (tree_map_only isinstance_Node unwrap_spec_from_node v).
Proof. apply preserves_unwrap_tree; eauto. Qed.

Lemma preserves_set_meta_sharding n v : preserves P (set_meta_sharding n v).
Proof. apply preserves_modify. intros s. apply P_metas. Qed.

Lemma preserves_read_sharding l attr : preserves P (read_sharding l attr).
Proof.
  intros s r s' H HP. unfold read_sharding, bind, get, raise, ret in H.
  destruct (heap s !! l) as [[d|o]|]; by inversion H; subst.
Qed.

Lemma preserves_setattr_sharding l attr f : preserves P (setattr_sharding l attr f).
Proof.
  intros s r s' H HP.
  unfold setattr_sharding, read_sharding, bind, get, modify, raise, ret in H.
  destruct (heap s !! l) as [[d|o]|] eqn:E; inversion H; subst; auto.
Qed.

Lemma preserves_alloc o : preserves P (alloc o).
Proof. intros s r s' H HP. inversion H; subst. by apply P_append. Qed.

Lemma preserves_call_rule op_call f schema : preserves P (call_rule op_call f schema).
Proof.
  intros s r s' H HP. unfold call_rule, bind, modify, get, raise in H. simpl in H.
  destruct (f schema (heap s)) as [e|fresh res]; inversion H; subst.
  - by apply P_log.
  - apply (P_append (set_heap _ _)), (P_append (log_rule_call _ _ _)). by apply P_log.
Qed.

Lemma preserves_run_op_prop reg node : preserves P (run_op_prop reg node).
Proof.
  unfold run_op_prop. destruct (reg (target node)) as [f|]; [|apply preserves_raise].
  apply preserves_bind; [apply preserves_walk_unwrap | intros a1].
  apply preserves_bind; [apply preserves_walk_unwrap | intros a2].
  apply preserves_bind; [apply preserves_try_except, preserves_call_rule | intros l].
  apply preserves_bind; [apply preserves_set_meta_sharding | intros _].
  apply preserves_bind; [apply preserves_read_sharding | intros o].
  apply preserves_bind; [| intros; apply preserves_ret].
  destruct (is_None (output_spec o)); [|apply preserves_setattr_sharding].
  destruct (schema_suggestions o) as [sugg|].
  - apply preserves_bind; [apply preserves_from_option | intros sch].
    apply preserves_bind; [apply preserves_call_rule | intros l2].
    apply preserves_bind; [apply preserves_read_sharding | intros o2].
    apply preserves_setattr_sharding.
  - destruct (failed_reason o); [apply preserves_raise | apply preserves_setattr_sharding].
Qed.

Lemma preserves_graph_step reg flat lv node : preserves P (graph_step reg flat lv node).
Proof.
  unfold graph_step. repeat case_decide.
  - apply preserves_bind; [apply preserves_from_option | intros a].
    apply preserves_bind; [| intros; apply preserves_ret].
    destruct (isinstance_DTensorSpec a);
      [apply preserves_set_meta_sharding | apply preserves_ret].
  - apply preserves_bind; [apply preserves_run_op_prop | intros; apply preserves_ret].
  - apply preserves_bind; [apply preserves_walk_unwrap | intros; apply preserves_ret].
  - apply preserves_raise.
Qed.

Lemma preserves_graph_loop reg flat ns : forall lv, preserves P (graph_loop reg flat ns lv).
Proof.
  induction ns as [|n ns IH]; intros lv; simpl.
  - apply preserves_ret.
  - apply preserves_bind; [apply preserves_graph_step | intros lv']. apply IH.
Qed.

Lemma preserves_run_graph_prop reg ns flat : preserves P (run_graph_prop reg ns flat).
Proof.
  unfold run_graph_prop.
  apply preserves_bind; [apply preserves_graph_loop | intros lv].
  apply preserves_bind; [apply preserves_from_option | intros v].
  apply preserves_bind; [apply preserves_from_option | intros l].
  apply preserves_bind; [apply preserves_read_sharding | intros o].
  apply preserves_alloc.
Qed.
End walk_preservation.

(** ** Running the primitives *)

Lemma lookup_snoc {A} (h : list A) (x : A) : (h ++ [x]) !! length h = Some x.
Proof. induction h; simpl; auto. Qed.

Lemma insert_snoc {A} (h : list A) (x y : A) : <[length h := y]> (h ++ [x]) = h ++ [y].
Proof. induction h; simpl; f_equal; auto. Qed.

Lemma set_meta_sharding_run n v s :
  set_meta_sharding n v s =
  (Ok tt, set_metas (<[n := mkNodeMeta (Some v) (meta_tensor_meta (meta_of (metas s) n))]> (metas s)) s).
Proof. reflexivity. Qed.

Lemma read_sharding_run l attr o s :
  heap s !! l = Some (OOutputSharding o) -> read_sharding l attr s = (Ok o, s).
Proof. intros H. unfold read_sharding, bind, get. by rewrite H. Qed.

Lemma setattr_sharding_run l attr f o s :
  heap s !! l = Some (OOutputSharding o) ->
  setattr_sharding l attr f s = (Ok tt, set_heap (<[l := OOutputSharding (f o)]> (heap s)) s).
Proof.
  intros H. unfold setattr_sharding. by rewrite (bind_ok _ _ _ _ _ (read_sharding_run l attr o s H)).
Qed.

Lemma call_rule_returns op_call f schema s fresh res :
  f schema (heap s) = RuleReturns fresh res ->
  call_rule op_call f schema s =
  (Ok (length (heap s ++ fresh)),
   set_heap ((heap s ++ fresh) ++ [OOutputSharding res]) (log_rule_call op_call schema s)).
Proof. intros H. unfold call_rule, bind, modify, get. simpl. by rewrite H. Qed.

Lemma call_rule_raises op_call f schema s e :
  f schema (heap s) = RuleRaises e ->
  call_rule op_call f schema s = (Raise e, log_rule_call op_call schema s).
Proof. intros H. unfold call_rule, bind, modify, get. simpl. by rewrite H. Qed.

(** Unwrapping the arguments of a node invokes no rule. *)
Lemma unwrap_tree_rule_calls v s r s' :
  tree_map_only isinstance_Node unwrap_spec_from_node v s = (r, s') ->
  rule_calls s' = rule_calls s.
Proof.
  intros H.
  apply (preserves_unwrap_tree (fun t => rule_calls t = rule_calls s)) in H; auto.
Qed.

Lemma run_op_prop_first_call reg node f s0 a1 s1 a2 s2 fresh res :
  reg (target node) = Some f ->
  tree_map_only isinstance_Node unwrap_spec_from_node (args node) s0 = (Ok a1, s1) ->
  tree_map_only isinstance_Node unwrap_spec_from_node (kwargs node) s1 = (Ok a2, s2) ->
  f (node_schema node a1 a2) (heap s2) = RuleReturns fresh res ->
  let op_schema := node_schema node a1 a2 in
  let l := length (heap s2 ++ fresh) in
  run_op_prop reg node s0 =
  ((if is_None (output_spec res) then
      match schema_suggestions res with
      | None =>
          match failed_reason res with
          | Some reason => raise (RuntimeError_failed_reason (target node) op_schema reason)
          | None => setattr_sharding l "schema_suggestions"
                      (with_schema_suggestions (Some [op_schema]))
          end
      | Some suggestions =>
          suggested_input_schema <- from_option (suggestions !! 0%nat) IndexError ;;
          propagation_res <- call_rule (target node) f suggested_input_schema ;;
          r <- read_sharding propagation_res "output_spec" ;;
          setattr_sharding l "output_spec" (with_output_spec (output_spec r))
      end
    else setattr_sharding l "schema_suggestions"
           (with_schema_suggestions (Some [op_schema]))) ;;;
   ret l) (after_first_call node op_schema fresh res s2).
Proof.
  intros Hreg Hargs Hkw Hf op_schema l. unfold run_op_prop. rewrite Hreg.
  rewrite (bind_ok _ _ _ _ _ Hargs), (bind_ok _ _ _ _ _ Hkw).
  fold (node_schema node a1 a2). fold op_schema.
  unfold try_except at 1. unfold bind at 1.
  rewrite (call_rule_returns _ _ _ _ _ _ Hf). fold l.
  unfold bind at 1. rewrite set_meta_sharding_run.
  unfold bind at 1. erewrite read_sharding_run; [reflexivity|].
  simpl. apply lookup_snoc.
Qed.

(** * Per-node propagation *)

(** C3: when the rule returns neither an output spec nor suggestions,
    [run_op_prop] raises the RuntimeError carrying the failure reason
    exactly when the result has one; with no failure reason it returns the
    result object with [schema_suggestions = [op_schema]] and no output
    spec. *)
Theorem run_op_prop_no_suggestions reg node f s0 a1 s1 a2 s2 fresh res :
  reg (target node) = Some f ->
  tree_map_only isinstance_Node unwrap_spec_from_node (args node) s0 = (Ok a1, s1) ->
  tree_map_only isinstance_Node unwrap_spec_from_node (kwargs node) s1 = (Ok a2, s2) ->
  f (node_schema node a1 a2) (heap s2) = RuleReturns fresh res ->
  output_spec res = VNone ->
  schema_suggestions res = None ->
  match failed_reason res with
  | Some reason =>
      exists s', run_op_prop reg node s0 =
        (Raise (RuntimeError_failed_reason (target node) (node_schema node a1 a2) reason), s')
  | None =>
      exists l s' o,
        run_op_prop reg node s0 = (Ok l, s') /\
        heap s' !! l = Some (OOutputSharding o) /\
        output_spec o = VNone /\
        schema_suggestions o = Some [node_schema node a1 a2] /\
        failed_reason o = None
  end.
Proof.
  intros Hreg Hargs Hkw Hf Hout Hsugg.
  rewrite (run_op_prop_first_call _ _ _ _ _ _ _ _ _ _ Hreg Hargs Hkw Hf).
  rewrite Hout, Hsugg. simpl is_None. cbv iota.
  destruct (failed_reason res) as [reason|] eqn:Hfr.
  - eexists. reflexivity.
  - set (s4 := after_first_call _ _ _ _ _).
    assert (Hl : heap s4 !! length (heap s2 ++ fresh) = Some (OOutputSharding res))
      by apply lookup_snoc.
    rewrite (bind_ok _ _ _ _ _ (setattr_sharding_run _ _ _ _ _ Hl)).
    do 3 eexists. split; [reflexivity|]. simpl.
    rewrite insert_snoc, lookup_snoc. split; [reflexivity|]. simpl. by rewrite Hout, Hfr.
Qed.

(** C1 (amended): when the first invocation returns no output spec and a
    non-empty list of suggestions, the rule is invoked a second time, on
    the first suggestion and on nothing else; if that invocation returns,
    [run_op_prop] returns the first result object with the output spec of
    the second invocation and its suggestions unchanged; if it raises, the
    exception leaves [run_op_prop]. *)
Theorem run_op_prop_retry reg node f s0 a1 s1 a2 s2 fresh res sugg rest :
  reg (target node) = Some f ->
  tree_map_only isinstance_Node unwrap_spec_from_node (args node) s0 = (Ok a1, s1) ->
  tree_map_only isinstance_Node unwrap_spec_from_node (kwargs node) s1 = (Ok a2, s2) ->
  f (node_schema node a1 a2) (heap s2) = RuleReturns fresh res ->
  output_spec res = VNone ->
  schema_suggestions res = Some (sugg :: rest) ->
  let calls := rule_calls s0 ++
               [(target node, node_schema node a1 a2); (target node, sugg)] in
  match f sugg ((heap s2 ++ fresh) ++ [OOutputSharding res]) with
  | RuleReturns fresh2 res2 =>
      exists l s' o,
        run_op_prop reg node s0 = (Ok l, s') /\
        heap s' !! l = Some (OOutputSharding o) /\
        output_spec o = output_spec res2 /\
        schema_suggestions o = Some (sugg :: rest) /\
        rule_calls s' = calls
  | RuleRaises e =>
      exists s', run_op_prop reg node s0 = (Raise e, s') /\ rule_calls s' = calls
  end.
Proof.
  intros Hreg Hargs Hkw Hf Hout Hsugg calls.
  rewrite (run_op_prop_first_call _ _ _ _ _ _ _ _ _ _ Hreg Hargs Hkw Hf).
  rewrite Hout, Hsugg. simpl is_None. cbv iota. simpl from_option.
  assert (Hcalls : rule_calls s2 = rule_calls s0).
  { rewrite (unwrap_tree_rule_calls _ _ _ _ Hkw). apply (unwrap_tree_rule_calls _ _ _ _ Hargs). }
  set (s4 := after_first_call _ _ _ _ _).
  change ((heap s2 ++ fresh) ++ [OOutputSharding res]) with (heap s4).
  destruct (f sugg (heap s4)) as [e|fresh2 res2] eqn:Hf2.
  - eexists. unfold bind at 1. unfold bind at 1. unfold ret at 1. unfold bind at 1.
    rewrite (call_rule_raises _ _ _ _ _ Hf2). split; [reflexivity|].
    simpl. rewrite Hcalls. unfold calls. by rewrite <- app_assoc.
  - unfold bind at 1. unfold bind at 1. unfold ret at 1. unfold bind at 1.
    rewrite (call_rule_returns _ _ _ _ _ _ Hf2).
    set (s5 := set_heap _ _).
    assert (H2 : heap s5 !! length (heap s4 ++ fresh2) = Some (OOutputSharding res2))
      by apply lookup_snoc.
    unfold bind at 1. rewrite (read_sharding_run _ _ _ _ H2).
    assert (H1 : heap s5 !! length (heap s2 ++ fresh) = Some (OOutputSharding res)).
    { simpl. rewrite <- !app_assoc. rewrite (app_assoc (heap s2) fresh).
      apply list_lookup_middle. done. }
    rewrite (setattr_sharding_run _ _ _ _ _ H1).
    do 3 eexists. split; [reflexivity|]. simpl.
    rewrite list_lookup_insert_eq.
    + split; [reflexivity|]. simpl. rewrite Hsugg, Hcalls. unfold calls.
      by rewrite <- !app_assoc.
    + rewrite !length_app. simpl. lia.
Qed.

(** The arguments of [call_node] unwrap to the caller's spec. *)
Lemma call_node_args d :
  tree_map_only isinstance_Node unwrap_spec_from_node (args call_node) (at_call d) =
  (Ok (VList [VSpec 0%nat]), at_call (with_tensor_meta tm0 d)).
Proof. reflexivity. Qed.

Lemma call_node_kwargs s :
  tree_map_only isinstance_Node unwrap_spec_from_node (kwargs call_node) s = (Ok (VDict []), s).
Proof. reflexivity. Qed.

Lemma run_op_prop_no_suggestions_witness :
  exists l s' o,
    run_op_prop (only rule_scalar) call_node (at_call spec_repl) = (Ok l, s') /\
    heap s' !! l = Some (OOutputSharding o) /\
    output_spec o = VNone /\
    schema_suggestions o = Some [unary_schema aten_add] /\
    failed_reason o = None.
Proof.
  apply (run_op_prop_no_suggestions (only rule_scalar) call_node rule_scalar
           (at_call spec_repl) (VList [VSpec 0%nat]) (at_call spec_repl)
           (VDict []) (at_call spec_repl) [] (mkOutputSharding VNone None None None));
    reflexivity.
Defined.

Example run_op_prop_failed_reason :
  fst (run_op_prop (only rule_declines) call_node (at_call spec_repl)) =
  Raise (RuntimeError_failed_reason aten_add (unary_schema aten_add) "unsupported placements").
Proof. vm_compute. reflexivity. Qed.

Lemma run_op_prop_retry_witness :
  exists l s' o,
    run_op_prop (only rule_reshard) call_node (at_call spec_repl) = (Ok l, s') /\
    heap s' !! l = Some (OOutputSharding o) /\
    output_spec o = VSpec 1%nat /\
    schema_suggestions o =
      Some [mkOpSchema (_schema aten_add) (VList [VSpec 1%nat]) (VDict [])] /\
    rule_calls s' =
      [(aten_add, unary_schema aten_add);
       (aten_add, mkOpSchema (_schema aten_add) (VList [VSpec 1%nat]) (VDict []))].
Proof.
  apply (run_op_prop_retry (only rule_reshard) call_node rule_reshard
           (at_call spec_repl) (VList [VSpec 0%nat]) (at_call spec_repl)
           (VDict []) (at_call spec_repl)
           [ODTensorSpec (mkDTensorSpec [Shard 0] None)]
           (mkOutputSharding VNone
              (Some [mkOpSchema (_schema aten_add) (VList [VSpec 1%nat]) (VDict [])])
              None None)
           (mkOpSchema (_schema aten_add) (VList [VSpec 1%nat]) (VDict [])) []);
    reflexivity.
Defined.

(** C1 as stated fails on an empty list of suggestions: the list is not
    [None], yet there is no first suggestion, [schema_suggestions[0]] raises
    IndexError and the rule has been invoked once only. *)
Lemma run_op_prop_empty_suggestions :
  rule_empty_suggestions (unary_schema aten_add) (heap (at_call spec_repl)) =
    RuleReturns [] (mkOutputSharding VNone (Some []) None None) /\
  fst (run_op_prop (only rule_empty_suggestions) call_node (at_call spec_repl)) =
    Raise IndexError /\
  rule_calls (snd (run_op_prop (only rule_empty_suggestions) call_node (at_call spec_repl))) =
    [(aten_add, unary_schema aten_add)].
Proof. vm_compute. repeat split. Qed.

(** * The graph walk *)

Lemma bind_assoc {A B C} (m : M A) (k : A -> M B) (k' : B -> M C) s :
  bind (bind m k) k' s = bind m (fun a => bind (k a) k') s.
Proof. unfold bind. by destruct (m s) as [[a|e] s1]. Qed.

Lemma graph_loop_app reg flat pre post lv s :
  graph_loop reg flat (pre ++ post) lv s =
  bind (graph_loop reg flat pre lv) (graph_loop reg flat post) s.
Proof.
  revert lv s. induction pre as [|n pre IH]; intros lv s; simpl.
  - reflexivity.
  - rewrite bind_assoc.
    destruct (graph_step reg flat lv n s) as [[lv'|e] s1] eqn:E.
    + rewrite !(bind_ok _ _ _ _ _ E). apply IH.
    + by rewrite !(bind_raise _ _ _ _ _ E).
Qed.

Lemma graph_step_placeholder reg flat lv node :
  op node = "placeholder" ->
  graph_step reg flat lv node =
  (a <- from_option (flat !! placeholder_idx lv) IndexError ;;
   (if isinstance_DTensorSpec a then set_meta_sharding (name node) a else ret tt) ;;;
   ret (mkLocals (S (placeholder_idx lv)) (l_output_sharding lv) (l_output_spec lv))).
Proof. intros H. unfold graph_step. by rewrite decide_True. Qed.

Lemma graph_step_call_function reg flat lv node :
  op node = "call_function" ->
  graph_step reg flat lv node =
  (output_sharding <- run_op_prop reg node ;;
   ret (mkLocals (placeholder_idx lv) (Some output_sharding) (l_output_spec lv))).
Proof.
  intros H. unfold graph_step.
  rewrite decide_False by (rewrite H; discriminate). by rewrite decide_True.
Qed.

Lemma graph_step_output reg flat lv node :
  op node = "output" ->
  graph_step reg flat lv node =
  (output_spec <- tree_map_only isinstance_Node unwrap_spec_from_node
                    (VList (all_input_nodes node)) ;;
   ret (mkLocals (placeholder_idx lv) (l_output_sharding lv) (Some output_spec))).
Proof.
  intros H. unfold graph_step.
  rewrite !decide_False by (rewrite H; discriminate). by rewrite decide_True.
Qed.

Lemma graph_step_other reg flat lv node :
  op node <> "placeholder" -> op node <> "call_function" -> op node <> "output" ->
  graph_step reg flat lv node = raise (ValueError (op node)).
Proof. intros H1 H2 H3. unfold graph_step. by rewrite !decide_False. Qed.

(** The four cases of one iteration. *)
Lemma graph_step_cases (node : Node) :
  op node = "placeholder" \/ op node = "call_function" \/ op node = "output" \/
  (op node <> "placeholder" /\ op node <> "call_function" /\ op node <> "output").
Proof.
  destruct (decide (op node = "placeholder")); [by left|].
  destruct (decide (op node = "call_function")); [by right; left|].
  destruct (decide (op node = "output")); [by right; right; left|].
  by right; right; right.
Qed.


Lemma count_placeholders_app pre post :
  count_placeholders (pre ++ post) = (count_placeholders pre + count_placeholders post)%nat.
Proof. unfold count_placeholders. by rewrite filter_app, length_app. Qed.





(** Building the fake operands reads the store and changes nothing. *)
Lemma rebuild_pure v s r s' :
  tree_map_only isinstance_DTensorSpec _rebuild_tensor_from_dtensor v s = (r, s') -> s' = s.
Proof.
  intros H.
  apply (preserves_tree_map_only (fun t => t = s)) in H; auto.
  clear. intros v t r t' H ->. unfold _rebuild_tensor_from_dtensor, bind, get in H.
  destruct v; try (by inversion H).
  destruct (heap s !! l) as [[d|o]|]; try (by inversion H).
  destruct (tensor_meta d); by inversion H.
Qed.



Lemma run_graph_prop_raises_at reg flat pre node post s0 lv s1 e s2 :
  graph_loop reg flat pre (mkLocals 0 None None) s0 = (Ok lv, s1) ->
  graph_step reg flat lv node s1 = (Raise e, s2) ->
  run_graph_prop reg (pre ++ node :: post) flat s0 = (Raise e, s2).
Proof.
  intros Hpre Hstep. unfold run_graph_prop.
  apply bind_raise. rewrite graph_loop_app. rewrite (bind_ok _ _ _ _ _ Hpre).
  simpl. by apply bind_raise.
Qed.







(** ** Graphs without computational nodes *)

(** Placeholder and output nodes only attach metadata and unwrap. *)
Section placeholder_output_preservation.
Variable P : State -> Prop.
Hypothesis P_spec : forall s l d tm,
  heap s !! l = Some (ODTensorSpec d) -> P s ->
  P (set_heap (<[l := ODTensorSpec (with_tensor_meta tm d)]> (heap s)) s).
Hypothesis P_extra : forall s l o tm,
  heap s !! l = Some (OOutputSharding o) -> P s ->
  P (set_heap (<[l := OOutputSharding (with_extra_tensor_meta tm o)]> (heap s)) s).
Hypothesis P_metas : forall s m, P s -> P (set_metas m s).

Lemma preserves_graph_step_no_call reg flat lv node :
  op node <> "call_function" -> preserves P (graph_step reg flat lv node).
Proof.
  intros Hop. destruct (graph_step_cases node) as [H|[H|[H|(H1 & H2 & H3)]]].
  - rewrite graph_step_placeholder by done.
    apply preserves_bind; [apply preserves_from_option | intros a].
    apply preserves_bind; [| intros; apply preserves_ret].
    destruct (isinstance_DTensorSpec a); [| apply preserves_ret].
    apply preserves_modify. intros s. apply P_metas.
  - done.
  - rewrite graph_step_output by done.
    apply preserves_bind; [| intros; apply preserves_ret].
    by apply preserves_unwrap_tree.
  - rewrite graph_step_other by done. apply preserves_raise.
Qed.

Lemma preserves_graph_loop_no_call reg flat ns :
  no_call_function ns -> forall lv, preserves P (graph_loop reg flat ns lv).
Proof.
  induction 1 as [|n ns Hn _ IH]; intros lv; simpl.
  - apply preserves_ret.
  - apply preserves_bind; [by apply preserves_graph_step_no_call | intros lv']. apply IH.
Qed.
End placeholder_output_preservation.

Lemma graph_step_no_call_sharding reg flat lv node s lv' s' :
  op node <> "call_function" ->
  graph_step reg flat lv node s = (Ok lv', s') ->
  l_output_sharding lv' = l_output_sharding lv.
Proof.
  intros Hop H. destruct (graph_step_cases node) as [H0|[H0|[H0|(H1 & H2 & H3)]]].
  - rewrite graph_step_placeholder in H by done.
    apply bind_ok_inv in H as (a & s1 & _ & H).
    apply bind_ok_inv in H as (u & s2 & _ & H). by inversion H.
  - done.
  - rewrite graph_step_output in H by done.
    apply bind_ok_inv in H as (a & s1 & _ & H). by inversion H.
  - rewrite graph_step_other in H by done. discriminate.
Qed.

Lemma graph_loop_no_call_sharding reg flat ns :
  no_call_function ns -> forall lv s lv' s',
  graph_loop reg flat ns lv s = (Ok lv', s') ->
  l_output_sharding lv' = l_output_sharding lv.
Proof.
  induction 1 as [|n ns Hn _ IH]; intros lv s lv' s' H; simpl in H.
  - by inversion H.
  - apply bind_ok_inv in H as (lv1 & s1 & H1 & H2).
    rewrite (IH _ _ _ _ H2). by eapply graph_step_no_call_sharding.
Qed.

(** Once bound, [output_spec] stays bound; an output node binds it. *)
Lemma graph_step_output_spec reg flat lv node s lv' s' :
  graph_step reg flat lv node s = (Ok lv', s') ->
  op node = "output" \/ is_Some (l_output_spec lv) ->
  is_Some (l_output_spec lv').
Proof.
  intros H Hb. destruct (graph_step_cases node) as [H0|[H0|[H0|(H1 & H2 & H3)]]].
  - rewrite graph_step_placeholder in H by done.
    apply bind_ok_inv in H as (a & s1 & _ & H).
    apply bind_ok_inv in H as (u & s2 & _ & H). inversion H; subst; simpl.
    destruct Hb as [Hb|Hb]; [rewrite H0 in Hb; discriminate | done].
  - rewrite graph_step_call_function in H by done.
    apply bind_ok_inv in H as (a & s1 & _ & H). inversion H; subst; simpl.
    destruct Hb as [Hb|Hb]; [rewrite H0 in Hb; discriminate | done].
  - rewrite graph_step_output in H by done.
    apply bind_ok_inv in H as (a & s1 & _ & H). inversion H; subst; simpl. eauto.
  - rewrite graph_step_other in H by done. discriminate.
Qed.

Lemma graph_loop_output_spec reg flat ns : forall lv s lv' s',
  graph_loop reg flat ns lv s = (Ok lv', s') ->
  Exists (fun n => op n = "output") ns \/ is_Some (l_output_spec lv) ->
  is_Some (l_output_spec lv').
Proof.
  induction ns as [|n ns IH]; intros lv s lv' s' H Hb; simpl in H.
  - inversion H; subst. destruct Hb as [Hb|Hb]; [by apply Exists_nil in Hb | done].
  - apply bind_ok_inv in H as (lv1 & s1 & H1 & H2).
    eapply IH; [exact H2|].
    destruct Hb as [Hb|Hb].
    + apply Exists_cons in Hb as [Hb|Hb]; [right | by left].
      eapply graph_step_output_spec; eauto.
    + right. eapply graph_step_output_spec; eauto.
Qed.

(** A graph with a computational node splits at the last one. *)
Lemma split_last_call_function ns :
  ~ no_call_function ns ->
  exists pre node post,
    ns = pre ++ node :: post /\ op node = "call_function" /\ no_call_function post.
Proof.
  induction ns as [|n ns IH]; intros H.
  - destruct H. constructor.
  - destruct (decide (no_call_function ns)) as [Hns|Hns].
    + exists [], n, ns. repeat split; [|done].
      destruct (decide (op n = "call_function")); [done|].
      destruct H. by constructor.
    + destruct (IH Hns) as (pre & node & post & -> & Hop & Hpost).
      by exists (n :: pre), node, post.
Qed.

Lemma suggestions_at_insert_spec h l d d' l1 :
  h !! l = Some (ODTensorSpec d) ->
  suggestions_at (<[l := ODTensorSpec d']> h) l1 = suggestions_at h l1.
Proof.
  intros H. unfold suggestions_at. destruct (decide (l = l1)) as [->|Hne].
  - rewrite list_lookup_insert_eq by (by eapply lookup_lt_Some). by rewrite H.
  - by rewrite list_lookup_insert_ne.
Qed.

Lemma suggestions_at_insert_sharding h l o o' l1 :
  h !! l = Some (OOutputSharding o) ->
  schema_suggestions o' = schema_suggestions o ->
  suggestions_at (<[l := OOutputSharding o']> h) l1 = suggestions_at h l1.
Proof.
  intros H Ho. unfold suggestions_at. destruct (decide (l = l1)) as [->|Hne].
  - rewrite list_lookup_insert_eq by (by eapply lookup_lt_Some). by rewrite H, Ho.
  - by rewrite list_lookup_insert_ne.
Qed.

(** Walking placeholder and output nodes leaves the suggestions of every
    result object as they are. *)
Lemma graph_loop_no_call_suggestions reg flat ns lv s r s' l1 :
  no_call_function ns ->
  graph_loop reg flat ns lv s = (r, s') ->
  suggestions_at (heap s') l1 = suggestions_at (heap s) l1.
Proof.
  intros Hns H.
  apply (preserves_graph_loop_no_call
           (fun t => suggestions_at (heap t) l1 = suggestions_at (heap s) l1)) in H; auto.
  - intros t l d tm Hl <-. simpl. by eapply suggestions_at_insert_spec.
  - intros t l o tm Hl <-. simpl. by eapply suggestions_at_insert_sharding.
Qed.

(** C10: a graph without call_function nodes never yields a result: if the
    walk gets through its placeholder and output nodes, the return
    statement reads [schema_suggestions] of [None] and raises
    AttributeError. Hence whenever [run_graph_prop] returns, the graph has
    a last call_function node, and the returned object carries the schema
    suggestions of the result [run_op_prop] returned for that node. *)
Theorem run_graph_prop_needs_call_function reg ns flat s :
  (no_call_function ns ->
   exists e s', run_graph_prop reg ns flat s = (Raise e, s')) /\
  (no_call_function ns ->
   Exists (fun n => op n = "output") ns ->
   forall lv s1,
     graph_loop reg flat ns (mkLocals 0 None None) s = (Ok lv, s1) ->
     run_graph_prop reg ns flat s = (Raise (AttributeError "schema_suggestions"), s1)) /\
  (forall l s',
     run_graph_prop reg ns flat s = (Ok l, s') ->
     exists pre node post lv s1 l1 s2,
       ns = pre ++ node :: post /\
       op node = "call_function" /\
       no_call_function post /\
       graph_loop reg flat pre (mkLocals 0 None None) s = (Ok lv, s1) /\
       run_op_prop reg node s1 = (Ok l1, s2) /\
       is_Some (suggestions_at (heap s') l) /\
       suggestions_at (heap s') l = suggestions_at (heap s2) l1).
Proof.
  split; [|split].
  - intros Hns. unfold run_graph_prop.
    destruct (graph_loop reg flat ns (mkLocals 0 None None) s) as [[lv|e] s1] eqn:E.
    + rewrite (bind_ok _ _ _ _ _ E).
      pose proof (graph_loop_no_call_sharding _ _ _ Hns _ _ _ _ E) as Hnone.
      simpl in Hnone.
      destruct (l_output_spec lv) as [v|]; unfold bind; simpl; rewrite ?Hnone; eauto.
    + rewrite (bind_raise _ _ _ _ _ E). eauto.
  - intros Hns Hout lv s1 E. unfold run_graph_prop.
    rewrite (bind_ok _ _ _ _ _ E).
    pose proof (graph_loop_no_call_sharding _ _ _ Hns _ _ _ _ E) as Hnone.
    simpl in Hnone.
    destruct (graph_loop_output_spec _ _ _ _ _ _ _ E (or_introl Hout)) as [v Hv].
    unfold bind. rewrite Hv, Hnone. reflexivity.
  - intros l s' H. unfold run_graph_prop in H.
    apply bind_ok_inv in H as (lvf & sf & Hloop & H).
    apply bind_ok_inv in H as (v & sf1 & Hv & H).
    apply bind_ok_inv in H as (lo & sf2 & Hlo & H).
    apply bind_ok_inv in H as (o & sf3 & Hread & H).
    destruct (l_output_spec lvf) as [v'|]; [|discriminate]. inversion Hv; subst v' sf1.
    destruct (l_output_sharding lvf) as [lo'|] eqn:Hsh; [|discriminate].
    inversion Hlo; subst lo' sf2.
    unfold read_sharding, bind, get in Hread.
    destruct (heap sf !! lo) as [[d|o']|] eqn:Hheap; try discriminate.
    inversion Hread; subst o' sf3. inversion H; subst l s'. clear Hv Hlo Hread H.
    destruct (decide (no_call_function ns)) as [Hns|Hns].
    { rewrite (graph_loop_no_call_sharding _ _ _ Hns _ _ _ _ Hloop) in Hsh. discriminate. }
    destruct (split_last_call_function ns Hns) as (pre & node & post & -> & Hop & Hpost).
    rewrite graph_loop_app in Hloop.
    apply bind_ok_inv in Hloop as (lv & s1 & Hpre & Hloop). simpl in Hloop.
    apply bind_ok_inv in Hloop as (lv2 & s2 & Hstep & Hloop).
    rewrite graph_step_call_function in Hstep by done.
    apply bind_ok_inv in Hstep as (l1 & s2' & Hrun & Hret). inversion Hret; subst lv2 s2'.
    pose proof (graph_loop_no_call_sharding _ _ _ Hpost _ _ _ _ Hloop) as Hl1.
    simpl in Hl1. rewrite Hsh in Hl1. inversion Hl1; subst lo.
    exists pre, node, post, lv, s1, l1, s2. repeat split; try done.
    + unfold suggestions_at. simpl. rewrite lookup_snoc. eauto.
    + rewrite <- (graph_loop_no_call_suggestions _ _ _ _ _ _ _ l1 Hpost Hloop).
      unfold suggestions_at. simpl. by rewrite lookup_snoc, Hheap.
Qed.

Lemma run_graph_prop_needs_call_function_witness :
  (exists s1, run_graph_prop (only rule_same) identity_graph [VSpec 0%nat]
                (at_start spec_shard0)
              = (Raise (AttributeError "schema_suggestions"), s1)) /\
  (exists pre node post lv s1 l1 s2,
     unary_graph aten_add = pre ++ node :: post /\
     op node = "call_function" /\
     no_call_function post /\
     graph_loop (only rule_same) [VSpec 0%nat] pre (mkLocals 0 None None)
       (at_start spec_shard0) = (Ok lv, s1) /\
     run_op_prop (only rule_same) node s1 = (Ok l1, s2) /\
     is_Some (suggestions_at
       (heap (snd (run_graph_prop (only rule_same) (unary_graph aten_add) [VSpec 0%nat]
                     (at_start spec_shard0)))) 2) /\
     suggestions_at
       (heap (snd (run_graph_prop (only rule_same) (unary_graph aten_add) [VSpec 0%nat]
                     (at_start spec_shard0)))) 2
     = suggestions_at (heap s2) l1).
Proof.
  split.
  - eexists.
    apply (proj1 (proj2 (run_graph_prop_needs_call_function (only rule_same)
                           identity_graph [VSpec 0%nat] (at_start spec_shard0))))
      with (lv := mkLocals 1 None (Some (VList [VSpec 0%nat]))).
    + repeat constructor; discriminate.
    + apply Exists_cons_tl, Exists_cons_hd. reflexivity.
    + reflexivity.
  - apply (proj2 (proj2 (run_graph_prop_needs_call_function (only rule_same)
                           (unary_graph aten_add) [VSpec 0%nat] (at_start spec_shard0)))).
    vm_compute. reflexivity.
Defined.

(** * Operand specs *)

Lemma placements_kept_refl s : placements_kept s s.
Proof. intros l d H. eauto. Qed.

Lemma placements_kept_insert_spec s0 s l d tm :
  heap s !! l = Some (ODTensorSpec d) -> placements_kept s0 s ->
  placements_kept s0 (set_heap (<[l := ODTensorSpec (with_tensor_meta tm d)]> (heap s)) s).
Proof.
  intros Hl HP l0 d0 H0. destruct (HP l0 d0 H0) as (d' & Hd' & Hpl). simpl.
  destruct (decide (l = l0)) as [->|Hne].
  - rewrite list_lookup_insert_eq by (by eapply lookup_lt_Some).
    eexists. split; [reflexivity|]. simpl. rewrite Hl in Hd'. by inversion Hd'; subst.
  - rewrite list_lookup_insert_ne by done. eauto.
Qed.

Lemma placements_kept_insert_sharding s0 s l o o' :
  heap s !! l = Some (OOutputSharding o) -> placements_kept s0 s ->
  placements_kept s0 (set_heap (<[l := OOutputSharding o']> (heap s)) s).
Proof.
  intros Hl HP l0 d0 H0. destruct (HP l0 d0 H0) as (d' & Hd' & Hpl). simpl.
  destruct (decide (l = l0)) as [->|Hne].
  - rewrite Hl in Hd'. discriminate.
  - rewrite list_lookup_insert_ne by done. eauto.
Qed.

Lemma placements_kept_append s0 s objs :
  placements_kept s0 s -> placements_kept s0 (set_heap (heap s ++ objs) s).
Proof.
  intros HP l0 d0 H0. destruct (HP l0 d0 H0) as (d' & Hd' & Hpl). simpl.
  rewrite lookup_app_l by (by eapply lookup_lt_Some). eauto.
Qed.

Lemma run_graph_prop_placements reg ns flat s r s' :
  run_graph_prop reg ns flat s = (r, s') -> placements_kept s s'.
Proof.
  intros H.
  apply (preserves_run_graph_prop (placements_kept s)) in H;
    auto using placements_kept_refl, placements_kept_append.
  - intros. by apply placements_kept_insert_spec.
  - intros. by eapply placements_kept_insert_sharding.
Qed.

(** C9 (amended): of the fields of an operand spec, the propagator writes
    [tensor_meta] only. Whatever [run_graph_prop] and [propagate] do,
    returning or raising, every DTensorSpec of the initial store is still
    a DTensorSpec with the same placements afterwards. And whenever a
    spec is unwrapped from a node, its [tensor_meta] is overwritten with
    the tensor metadata of that node, whatever it held before: the spec
    is returned, its placements and every other object stay as they
    were. *)
Theorem operand_spec_placements_immutable G reg op_call schema ns flat s :
  (forall r s', run_graph_prop reg ns flat s = (r, s') -> placements_kept s s') /\
  (forall r s', propagate G reg op_call schema s = (r, s') -> placements_kept s s') /\
  (forall nm l d tm,
     meta_sharding (meta_of (metas s) nm) = Some (VSpec l) ->
     meta_tensor_meta (meta_of (metas s) nm) = Some tm ->
     heap s !! l = Some (ODTensorSpec d) ->
     unwrap_spec_from_node (VNode nm) s =
     (Ok (VSpec l),
      set_heap (<[l := ODTensorSpec (mkDTensorSpec (placements d) (Some tm))]> (heap s)) s)).
Proof.
  split; [intros r s'; apply run_graph_prop_placements|].
  split; [|intros nm l d tm Hsh Htm Hl; unfold unwrap_spec_from_node, bind, get;
           rewrite Hsh, Htm; simpl; unfold bind, get; by rewrite Hl].
  intros r s' H. unfold propagate in H.
  apply bind_inv in H as [(fa & s1 & Ha & H)|(e & Ha & _)];
    [|rewrite (rebuild_pure _ _ _ _ Ha); apply placements_kept_refl].
  apply rebuild_pure in Ha as ->.
  apply bind_inv in H as [(fk & s1 & Hk & H)|(e & Hk & _)];
    [|rewrite (rebuild_pure _ _ _ _ Hk); apply placements_kept_refl].
  apply rebuild_pure in Hk as ->.
  destruct (G op_call fa fk) as [e|g].
  - inversion H; subst. apply placements_kept_refl.
  - unfold bind at 1 in H. simpl in H.
    apply run_graph_prop_placements in H. exact H.
Qed.

Lemma operand_spec_placements_immutable_witness :
  (exists d',
     heap (snd (run_graph_prop (only rule_same) (unary_graph aten_add) [VSpec 0%nat]
                  (at_start (mkDTensorSpec [Shard 0] None)))) !! 0%nat
     = Some (ODTensorSpec d') /\
     placements d' = [Shard 0]) /\
  unwrap_spec_from_node (VNode "arg0") (at_call (mkDTensorSpec [Shard 0] None)) =
  (Ok (VSpec 0%nat), at_call (mkDTensorSpec [Shard 0] (Some tm0))).
Proof.
  split.
  - apply (proj1 (operand_spec_placements_immutable (trace_unary aten_add) (only rule_same)
                    aten_add (unary_schema aten_add) (unary_graph aten_add) [VSpec 0%nat]
                    (at_start (mkDTensorSpec [Shard 0] None))) _ _ (surjective_pairing _)
                 0%nat (mkDTensorSpec [Shard 0] None)).
    reflexivity.
  - apply (proj2 (proj2 (operand_spec_placements_immutable (trace_unary aten_add)
                           (only rule_same) aten_add (unary_schema aten_add)
                           (unary_graph aten_add) [VSpec 0%nat]
                           (at_call (mkDTensorSpec [Shard 0] None))))
                 "arg0" 0%nat (mkDTensorSpec [Shard 0] None) tm0); reflexivity.
Defined.

(** C9 as stated fails: the caller's spec attached to the placeholder has
    no tensor metadata before the walk and has that of the node after it;
    [unwrap_spec_from_node] has assigned the field. *)
Lemma run_graph_prop_writes_tensor_meta :
  heap (at_start (mkDTensorSpec [Shard 0] None)) !! 0%nat
    = Some (ODTensorSpec (mkDTensorSpec [Shard 0] None)) /\
  heap (snd (run_graph_prop (only rule_same) (unary_graph aten_add) [VSpec 0%nat]
               (at_start (mkDTensorSpec [Shard 0] None)))) !! 0%nat
    = Some (ODTensorSpec (mkDTensorSpec [Shard 0] (Some tm0))).
Proof. vm_compute. split; reflexivity. Qed.

(** * The cache *)

(** ** Equality of schemas is an equivalence *)

Lemma spec_eqb_sym h a b : spec_eqb h a b = spec_eqb h b a.
Proof.
  unfold spec_eqb.
  destruct (h !! a) as [[da|oa]|], (h !! b) as [[db|ob]|];
    apply bool_decide_ext; split; congruence.
Qed.

Lemma spec_eqb_trans h a b c :
  spec_eqb h a b = true -> spec_eqb h b c = true -> spec_eqb h a c = true.
Proof.
  unfold spec_eqb.
  destruct (h !! a) as [[da|oa]|] eqn:Ea, (h !! b) as [[db|ob]|] eqn:Eb,
           (h !! c) as [[dc|oc]|] eqn:Ec;
    rewrite !bool_decide_eq_true; intros; subst; congruence.
Qed.

Lemma list_eqb_sym {A} (f : A -> A -> bool) l1 :
  Forall (fun x => forall y, f x y = f y x) l1 ->
  forall l2, list_eqb f l1 l2 = list_eqb f l2 l1.
Proof.
  induction 1 as [|x xs Hx _ IH]; intros [|y ys]; simpl; try reflexivity.
  by rewrite Hx, IH.
Qed.

Lemma list_eqb_trans {A} (f : A -> A -> bool) l1 :
  Forall (fun x => forall y z, f x y = true -> f y z = true -> f x z = true) l1 ->
  forall l2 l3, list_eqb f l1 l2 = true -> list_eqb f l2 l3 = true ->
                list_eqb f l1 l3 = true.
Proof.
  induction 1 as [|x xs Hx _ IH]; intros [|y ys] [|z zs]; simpl; try done.
  rewrite !andb_true_iff. intros [H1 H2] [H3 H4]. split; eauto.
Qed.

Lemma value_eqb_sym h v1 : forall v2, value_eqb h v1 v2 = value_eqb h v2 v1.
Proof.
  induction v1 as [| | | | | |vs IH|kvs IH] using value_rect'; intros []; simpl;
    try reflexivity; try (apply bool_decide_ext; split; congruence).
  - apply spec_eqb_sym.
  - by apply list_eqb_sym.
  - apply list_eqb_sym. eapply Forall_impl; [exact IH|].
    intros kv Hkv kv'. simpl in Hkv. rewrite Hkv. f_equal.
    apply bool_decide_ext; split; congruence.
Qed.

Lemma value_eqb_trans h v1 : forall v2 v3,
  value_eqb h v1 v2 = true -> value_eqb h v2 v3 = true -> value_eqb h v1 v3 = true.
Proof.
  induction v1 as [| | | | | |vs IH|kvs IH] using value_rect'; intros [] []; simpl;
    try done; rewrite ?bool_decide_eq_true; try congruence.
  - apply spec_eqb_trans.
  - by apply list_eqb_trans.
  - apply list_eqb_trans. eapply Forall_impl; [exact IH|].
    intros kv Hkv kv1 kv2. simpl in Hkv.
    rewrite !andb_true_iff, !bool_decide_eq_true.
    intros [? ?] [? ?]. split; [congruence | eauto].
Qed.

Lemma schema_eqb_sym h a b : schema_eqb h a b = schema_eqb h b a.
Proof.
  unfold schema_eqb.
  rewrite (value_eqb_sym h (args_schema a)), (value_eqb_sym h (kwargs_schema a)).
  do 2 f_equal. apply bool_decide_ext; split; congruence.
Qed.

Lemma schema_eqb_trans h a b c :
  schema_eqb h a b = true -> schema_eqb h b c = true -> schema_eqb h a c = true.
Proof.
  unfold schema_eqb. rewrite !andb_true_iff, !bool_decide_eq_true.
  intros [[? ?] ?] [[? ?] ?].
  repeat split; [congruence | eapply value_eqb_trans; eauto..].
Qed.

(** A key just stored is found by every schema equal to it. *)
Lemma cache_lookup_store h q q' v c :
  schema_eqb h q q' = true -> cache_lookup h q' (cache_store h q v c) = Some v.
Proof.
  intros Hq. induction c as [|[k v'] c IH]; simpl.
  - by rewrite Hq.
  - destruct (schema_eqb h k q) eqn:Hk; simpl.
    + by rewrite (schema_eqb_trans _ _ _ _ Hk Hq).
    + destruct (schema_eqb h k q') eqn:Hk'; [|exact IH].
      rewrite schema_eqb_sym in Hq.
      by rewrite (schema_eqb_trans _ _ _ _ Hk' Hq) in Hk.
Qed.

(** The first key equal to the schema answers the lookup. *)
Lemma cache_lookup_hit h q pre k v post :
  schema_eqb h k q = true -> no_key h q pre ->
  cache_lookup h q (pre ++ (k, v) :: post) = Some v.
Proof.
  intros Hk Hpre. induction Hpre as [|[k' v'] pre Hk' _ IH]; simpl.
  - by rewrite Hk.
  - simpl in Hk'. by rewrite Hk'.
Qed.

Lemma cache_lookup_miss h q c : no_key h q c -> cache_lookup h q c = None.
Proof.
  induction 1 as [|[k' v'] c Hk' _ IH]; simpl; [done|].
  simpl in Hk'. by rewrite Hk'.
Qed.

(** A store under a new key appends, a store under a key already there
    replaces the value of the first equal key. *)
Lemma cache_store_miss h q v c : no_key h q c -> cache_store h q v c = c ++ [(q, v)].
Proof.
  induction 1 as [|[k' v'] c Hk' _ IH]; simpl; [done|].
  simpl in Hk'. by rewrite Hk', IH.
Qed.

Lemma cache_store_hit h q v pre k v0 post :
  schema_eqb h k q = true -> no_key h q pre ->
  cache_store h q v (pre ++ (k, v0) :: post) = pre ++ (k, v) :: post.
Proof.
  intros Hk Hpre. induction Hpre as [|[k' v'] pre Hk' _ IH]; simpl.
  - by rewrite Hk.
  - simpl in Hk'. by rewrite Hk', IH.
Qed.

Lemma propagate_keeps_cache G reg op_call schema s r s' :
  propagate G reg op_call schema s = (r, s') ->
  cached_prop_results s' = cached_prop_results s.
Proof.
  intros H. unfold propagate in H.
  apply bind_inv in H as [(fa & s1 & Ha & H)|(e & Ha & _)];
    [|by rewrite (rebuild_pure _ _ _ _ Ha)].
  apply rebuild_pure in Ha as ->.
  apply bind_inv in H as [(fk & s1 & Hk & H)|(e & Hk & _)];
    [|by rewrite (rebuild_pure _ _ _ _ Hk)].
  apply rebuild_pure in Hk as ->.
  destruct (G op_call fa fk) as [e|g]; [by inversion H|].
  unfold bind at 1 in H. simpl in H.
  apply (preserves_run_graph_prop
           (fun t => cached_prop_results t = cached_prop_results s)) in H; auto.
Qed.

(** C5: when some key of the cache is equal to the schema, the caching
    propagator returns the result stored under the first such key and
    leaves the whole state as it is: no trial graph is built and no rule is
    invoked. When no key is equal to it, it runs the wrapped [propagate]:
    an exception passes through and nothing is stored; a result is
    returned and stored under the schema (appended as a new entry, or
    replacing the value of a key that the propagation made equal to the
    schema) while nothing but the cache changes, and from then on every
    call with an equal schema returns that same result. *)
Theorem caching_propagate_correct G reg op_call q s :
  (forall pre k cached post,
     cached_prop_results s = pre ++ (k, cached) :: post ->
     schema_eqb (heap s) k q = true ->
     no_key (heap s) q pre ->
     CachingPropagator.propagate G reg op_call q s = (Ok cached, s)) /\
  (no_key (heap s) q (cached_prop_results s) ->
   forall res s1,
     propagate G reg op_call q s = (res, s1) ->
     match res with
     | Raise e =>
         CachingPropagator.propagate G reg op_call q s = (Raise e, s1) /\
         cached_prop_results s1 = cached_prop_results s
     | Ok r =>
         exists c2,
           let s2 := set_cache c2 s1 in
           CachingPropagator.propagate G reg op_call q s = (Ok r, s2) /\
           (no_key (heap s1) q (cached_prop_results s) ->
            c2 = cached_prop_results s ++ [(q, r)]) /\
           (forall pre k v post,
              cached_prop_results s = pre ++ (k, v) :: post ->
              schema_eqb (heap s1) k q = true ->
              no_key (heap s1) q pre ->
              c2 = pre ++ (k, r) :: post) /\
           forall op_call' q',
             schema_eqb (heap s2) q q' = true ->
             CachingPropagator.propagate G reg op_call' q' s2 = (Ok r, s2)
     end).
Proof.
  split.
  - intros pre k cached post Hc Hk Hpre.
    unfold CachingPropagator.propagate, bind, get.
    by rewrite Hc, (cache_lookup_hit _ _ _ _ _ _ Hk Hpre).
  - intros Hmiss res s1 Hrun.
    assert (Hcp : CachingPropagator.propagate G reg op_call q s =
                  bind (propagate G reg op_call q)
                    (fun output_sharding =>
                       bind (modify (fun s' => set_cache
                               (cache_store (heap s') q output_sharding
                                  (cached_prop_results s')) s'))
                            (fun _ => ret output_sharding)) s).
    { unfold CachingPropagator.propagate. unfold bind at 1. unfold get.
      by rewrite (cache_lookup_miss _ _ _ Hmiss). }
    pose proof (propagate_keeps_cache _ _ _ _ _ _ _ Hrun) as Hkeep.
    destruct res as [r|e].
    + exists (cache_store (heap s1) q r (cached_prop_results s1)).
      split; [by rewrite Hcp, (bind_ok _ _ _ _ _ Hrun)|].
      rewrite Hkeep. split; [intros Hno; by apply cache_store_miss|].
      split; [intros pre k v post -> Hk Hpre; by apply cache_store_hit|].
      intros op_call' q' Heq.
      unfold CachingPropagator.propagate, bind, get. simpl in *.
      by rewrite (cache_lookup_store _ _ _ _ _ Heq).
    + split; [by rewrite Hcp, (bind_raise _ _ _ _ _ Hrun) | done].
Qed.

Lemma caching_propagate_correct_witness :
  let first := CachingPropagator.propagate (trace_unary aten_add) (only rule_same)
                 aten_add (unary_schema_at 0) two_specs in
  fst first = Ok 3%nat /\
  cached_prop_results (snd first) = [(unary_schema_at 0, 3%nat)] /\
  CachingPropagator.propagate (trace_unary aten_add) (only rule_same)
    aten_add (unary_schema_at 1) (snd first) = (Ok 3%nat, snd first).
Proof.
  pose proof (proj2 (caching_propagate_correct (trace_unary aten_add) (only rule_same)
                       aten_add (unary_schema_at 0) two_specs) (Forall_nil_2 _) _ _
                    (surjective_pairing _)) as H.
  assert (Hfst : fst (propagate (trace_unary aten_add) (only rule_same) aten_add
                        (unary_schema_at 0) two_specs) = Ok 3%nat)
    by (vm_compute; reflexivity).
  rewrite Hfst in H. destruct H as (c2 & H1 & Hnew & _ & H2).
  specialize (Hnew (Forall_nil_2 _)). simpl in Hnew. subst c2.
  intros first. subst first. rewrite H1. simpl fst. simpl snd.
  split; [reflexivity|]. split; [reflexivity|].
  apply (H2 aten_add (unary_schema_at 1)). vm_compute. reflexivity.
Defined.

(** * Where the code departs from its description *)

(** C6: when the first invocation returns an output spec, [run_op_prop]
    returns the result object with [schema_suggestions = [op_schema]]; what
    it stores under [op_node.meta["sharding"]] is a reference to that
    result object, not the output spec. *)
Theorem run_op_prop_resolved reg node f s0 a1 s1 a2 s2 fresh res :
  reg (target node) = Some f ->
  tree_map_only isinstance_Node unwrap_spec_from_node (args node) s0 = (Ok a1, s1) ->
  tree_map_only isinstance_Node unwrap_spec_from_node (kwargs node) s1 = (Ok a2, s2) ->
  f (node_schema node a1 a2) (heap s2) = RuleReturns fresh res ->
  output_spec res <> VNone ->
  exists l s',
    run_op_prop reg node s0 = (Ok l, s') /\
    heap s' !! l = Some (OOutputSharding
                           (with_schema_suggestions (Some [node_schema node a1 a2]) res)) /\
    meta_sharding (meta_of (metas s') (name node)) = Some (VSharding l).
Proof.
  intros Hreg Hargs Hkw Hf Hout.
  rewrite (run_op_prop_first_call _ _ _ _ _ _ _ _ _ _ Hreg Hargs Hkw Hf).
  assert (His : is_None (output_spec res) = false) by (by destruct (output_spec res)).
  rewrite His.
  set (s4 := after_first_call _ _ _ _ _).
  assert (Hl : heap s4 !! length (heap s2 ++ fresh) = Some (OOutputSharding res))
    by apply lookup_snoc.
  rewrite (bind_ok _ _ _ _ _ (setattr_sharding_run _ _ _ _ _ Hl)).
  do 2 eexists. split; [reflexivity|]. simpl. split.
  - by rewrite insert_snoc, lookup_snoc.
  - unfold meta_of. by rewrite lookup_insert_eq.
Qed.

Lemma run_op_prop_resolved_witness :
  rule_same (unary_schema aten_add) (heap (at_call spec_shard0)) =
    RuleReturns [] (mkOutputSharding (VSpec 0%nat) None None None) /\
  exists l s',
    run_op_prop (only rule_same) call_node (at_call spec_shard0) = (Ok l, s') /\
    heap s' !! l = Some (OOutputSharding
      (mkOutputSharding (VSpec 0%nat) (Some [unary_schema aten_add]) None None)) /\
    meta_sharding (meta_of (metas s') "call") = Some (VSharding l).
Proof.
  split; [reflexivity|].
  apply (run_op_prop_resolved (only rule_same) call_node rule_same
           (at_call spec_shard0) (VList [VSpec 0%nat]) (at_call spec_shard0)
           (VDict []) (at_call spec_shard0) []
           (mkOutputSharding (VSpec 0%nat) None None None));
    [reflexivity | reflexivity | reflexivity | reflexivity | discriminate].
Defined.

(** C7: an exception of the first rule invocation leaves [run_op_prop]
    wrapped in the RuntimeError that names operator, schema and cause; an
    exception of the second invocation, the one on the suggested schema,
    leaves it as it is. *)
Theorem run_op_prop_rule_exceptions reg node f s0 a1 s1 a2 s2 :
  reg (target node) = Some f ->
  tree_map_only isinstance_Node unwrap_spec_from_node (args node) s0 = (Ok a1, s1) ->
  tree_map_only isinstance_Node unwrap_spec_from_node (kwargs node) s1 = (Ok a2, s2) ->
  (forall e,
     f (node_schema node a1 a2) (heap s2) = RuleRaises e ->
     exists s', run_op_prop reg node s0 =
       (Raise (RuntimeError_propagation_failed (target node) (node_schema node a1 a2) e), s')) /\
  (forall fresh res sugg rest e,
     f (node_schema node a1 a2) (heap s2) = RuleReturns fresh res ->
     output_spec res = VNone ->
     schema_suggestions res = Some (sugg :: rest) ->
     f sugg ((heap s2 ++ fresh) ++ [OOutputSharding res]) = RuleRaises e ->
     exists s', run_op_prop reg node s0 = (Raise e, s')).
Proof.
  intros Hreg Hargs Hkw. split.
  - intros e Hf. unfold run_op_prop. rewrite Hreg.
    rewrite (bind_ok _ _ _ _ _ Hargs), (bind_ok _ _ _ _ _ Hkw).
    fold (node_schema node a1 a2).
    unfold try_except at 1. unfold bind at 1.
    rewrite (call_rule_raises _ _ _ _ _ Hf). eauto.
  - intros fresh res sugg rest e Hf Hout Hsugg Hf2.
    rewrite (run_op_prop_first_call _ _ _ _ _ _ _ _ _ _ Hreg Hargs Hkw Hf).
    rewrite Hout, Hsugg. simpl is_None. cbv iota. simpl from_option.
    set (s4 := after_first_call _ _ _ _ _).
    change ((heap s2 ++ fresh) ++ [OOutputSharding res]) with (heap s4) in Hf2.
    eexists. unfold bind at 1. unfold bind at 1. unfold ret at 1. unfold bind at 1.
    rewrite (call_rule_raises _ _ _ _ _ Hf2). reflexivity.
Qed.

Lemma run_op_prop_rule_exceptions_witness :
  (exists s', run_op_prop (only rule_raises) call_node (at_call spec_repl) =
     (Raise (RuntimeError_propagation_failed aten_add (unary_schema aten_add)
               (RuleError "boom")), s')) /\
  (exists s', run_op_prop (only rule_raises_on_retry) call_node (at_call spec_repl) =
     (Raise (RuleError "boom"), s')).
Proof.
  split.
  - apply (proj1 (run_op_prop_rule_exceptions (only rule_raises) call_node rule_raises
                    (at_call spec_repl) (VList [VSpec 0%nat]) (at_call spec_repl)
                    (VDict []) (at_call spec_repl) eq_refl eq_refl eq_refl)).
    reflexivity.
  - apply (proj2 (run_op_prop_rule_exceptions (only rule_raises_on_retry) call_node
                    rule_raises_on_retry
                    (at_call spec_repl) (VList [VSpec 0%nat]) (at_call spec_repl)
                    (VDict []) (at_call spec_repl) eq_refl eq_refl eq_refl)
             [ODTensorSpec (mkDTensorSpec [Shard 0] None)]
             (mkOutputSharding VNone
                (Some [mkOpSchema (_schema aten_add) (VList [VSpec 1%nat]) (VDict [])])
                None None)
             (mkOpSchema (_schema aten_add) (VList [VSpec 1%nat]) (VDict [])) []);
      reflexivity.
Defined.

(** C2: for a rule that supports the operand, the rule applied to the flat
    schema returns the operand's spec as output spec, while the object
    [propagate] returns has as output spec a list holding the result object
    of the node, because that is what the node carries under
    [meta["sharding"]]. *)
Theorem propagate_output_spec_is_result_object :
  rule_same (unary_schema aten_add) (heap (at_start spec_shard0)) =
    RuleReturns [] (mkOutputSharding (VSpec 0%nat) None None None) /\
  fst (propagate (trace_unary aten_add) (only rule_same) aten_add (unary_schema aten_add)
         (at_start spec_shard0)) = Ok 2%nat /\
  heap (snd (propagate (trace_unary aten_add) (only rule_same) aten_add
               (unary_schema aten_add) (at_start spec_shard0))) !! 2%nat =
    Some (OOutputSharding
            (mkOutputSharding (VList [VSharding 1%nat])
                              (Some [unary_schema aten_add]) None None)) /\
  heap (snd (propagate (trace_unary aten_add) (only rule_same) aten_add
               (unary_schema aten_add) (at_start spec_shard0))) !! 1%nat =
    Some (OOutputSharding
            (mkOutputSharding (VSpec 0%nat) (Some [unary_schema aten_add]) None (Some tm0))).
Proof. vm_compute. repeat split. Qed.

(** * Further properties of the propagator *)

(** ** Invariants of the graph walk *)

(** Predicates stable under the stores the walk really performs: tensor
    metadata of a spec, fields of a result object other than its failure
    reason, allocation, the rule log, and the sharding entry of a node. *)
Section walk_invariant.
Variable P : State -> Prop.
Hypothesis P_spec : forall s l d tm,
  heap s !! l = Some (ODTensorSpec d) -> P s ->
  P (set_heap (<[l := ODTensorSpec (with_tensor_meta tm d)]> (heap s)) s).
Hypothesis P_update : forall s l o o',
  heap s !! l = Some (OOutputSharding o) ->
  failed_reason o' = failed_reason o -> P s ->
  P (set_heap (<[l := OOutputSharding o']> (heap s)) s).
Hypothesis P_append : forall s objs, P s -> P (set_heap (heap s ++ objs) s).
Hypothesis P_log : forall s o sch, P s -> P (log_rule_call o sch s).
Hypothesis P_meta : forall s n v, P s ->
  P (set_metas (<[n := mkNodeMeta (Some v) (meta_tensor_meta (meta_of (metas s) n))]>
                  (metas s)) s).

Lemma inv_unwrap_tree v :
  preserves P (tree_map_only isinstance_Node unwrap_spec_from_node v).
Proof. apply preserves_unwrap_tree; [exact P_spec|]. intros. by eapply P_update. Qed.

Lemma inv_set_meta_sharding n v : preserves P (set_meta_sharding n v).
Proof. intros s r s' H HP. inversion H; subst. by apply P_meta. Qed.

Lemma inv_setattr_sharding l attr f :
  (forall o, failed_reason (f o) = failed_reason o) ->
  preserves P (setattr_sharding l attr f).
Proof.
  intros Hf s r s' H HP.
  unfold setattr_sharding, read_sharding, bind, get, modify, raise, ret in H.
  destruct (heap s !! l) as [[d|o]|] eqn:E; inversion H; subst; auto.
  by eapply P_update.
Qed.

Lemma inv_run_op_prop reg node : preserves P (run_op_prop reg node).
Proof.
  unfold run_op_prop. destruct (reg (target node)) as [f|]; [|apply preserves_raise].
  apply preserves_bind; [apply inv_unwrap_tree | intros a1].
  apply preserves_bind; [apply inv_unwrap_tree | intros a2].
  apply preserves_bind; [by apply preserves_try_except, preserves_call_rule | intros l].
  apply preserves_bind; [apply inv_set_meta_sharding | intros _].
  apply preserves_bind; [apply preserves_read_sharding | intros o].
  apply preserves_bind; [| intros; apply preserves_ret].
  destruct (is_None (output_spec o)); [|by apply inv_setattr_sharding].
  destruct (schema_suggestions o) as [sugg|].
  - apply preserves_bind; [apply preserves_from_option | intros sch].
    apply preserves_bind; [by apply preserves_call_rule | intros l2].
    apply preserves_bind; [apply preserves_read_sharding | intros o2].
    by apply inv_setattr_sharding.
  - destruct (failed_reason o); [apply preserves_raise | by apply inv_setattr_sharding].
Qed.

Lemma inv_graph_step reg flat lv node : preserves P (graph_step reg flat lv node).
Proof.
  destruct (graph_step_cases node) as [H|[H|[H|(H1 & H2 & H3)]]].
  - rewrite graph_step_placeholder by done.
    apply preserves_bind; [apply preserves_from_option | intros a].
    apply preserves_bind; [| intros; apply preserves_ret].
    destruct (isinstance_DTensorSpec a); [apply inv_set_meta_sharding | apply preserves_ret].
  - rewrite graph_step_call_function by done.
    apply preserves_bind; [apply inv_run_op_prop | intros; apply preserves_ret].
  - rewrite graph_step_output by done.
    apply preserves_bind; [apply inv_unwrap_tree | intros; apply preserves_ret].
  - rewrite graph_step_other by done. apply preserves_raise.
Qed.

Lemma inv_graph_loop reg flat ns : forall lv, preserves P (graph_loop reg flat ns lv).
Proof.
  induction ns as [|n ns IH]; intros lv; simpl.
  - apply preserves_ret.
  - apply preserves_bind; [apply inv_graph_step | intros lv']. apply IH.
Qed.

Lemma inv_run_graph_prop reg ns flat : preserves P (run_graph_prop reg ns flat).
Proof.
  unfold run_graph_prop.
  apply preserves_bind; [apply inv_graph_loop | intros lv].
  apply preserves_bind; [apply preserves_from_option | intros v].
  apply preserves_bind; [apply preserves_from_option | intros l].
  apply preserves_bind; [apply preserves_read_sharding | intros o].
  by apply preserves_alloc.
Qed.
End walk_invariant.

(** The walk never writes [meta["tensor_meta"]] of any node: whatever
    [run_graph_prop] does, returning or raising, every node has afterwards
    the tensor metadata entry the tracer gave it. *)
Theorem run_graph_prop_keeps_node_tensor_meta reg ns flat s r s' :
  run_graph_prop reg ns flat s = (r, s') ->
  forall n, meta_tensor_meta (meta_of (metas s') n) = meta_tensor_meta (meta_of (metas s) n).
Proof.
  intros H.
  apply (inv_run_graph_prop
           (fun t => forall n, meta_tensor_meta (meta_of (metas t) n)
                               = meta_tensor_meta (meta_of (metas s) n))) in H; auto.
  intros t n v Ht n'. simpl. rewrite <- Ht. unfold meta_of.
  destruct (decide (n = n')) as [->|Hne].
  - by rewrite lookup_insert_eq.
  - by rewrite lookup_insert_ne.
Qed.

Lemma run_graph_prop_keeps_node_tensor_meta_witness :
  meta_tensor_meta (meta_of (metas (snd
    (run_graph_prop (only rule_same) (unary_graph aten_add) [VSpec 0%nat]
       (at_start spec_shard0)))) "call") = Some tm0.
Proof.
  apply (run_graph_prop_keeps_node_tensor_meta (only rule_same) (unary_graph aten_add)
           [VSpec 0%nat] (at_start spec_shard0) _ _ (surjective_pairing _) "call").
Defined.

(** The walk never frees or retypes an object and never touches a failure
    reason: after [run_graph_prop] the store is at least as long as
    before, and every OutputSharding it held is still an OutputSharding
    with the failure reason it had. *)
Theorem run_graph_prop_keeps_failed_reason reg ns flat s r s' :
  run_graph_prop reg ns flat s = (r, s') ->
  (length (heap s) <= length (heap s'))%nat /\
  forall l o, heap s !! l = Some (OOutputSharding o) ->
    exists o', heap s' !! l = Some (OOutputSharding o') /\
               failed_reason o' = failed_reason o.
Proof.
  intros H. split.
  - apply (inv_run_graph_prop (fun t => (length (heap s) <= length (heap t))%nat)) in H;
      auto; intros; simpl; rewrite ?length_insert, ?length_app; lia.
  - apply (inv_run_graph_prop
             (fun t => forall l o, heap s !! l = Some (OOutputSharding o) ->
                exists o', heap t !! l = Some (OOutputSharding o') /\
                           failed_reason o' = failed_reason o)) in H; eauto.
    + intros t l d tm Hl Ht l0 o0 H0. destruct (Ht l0 o0 H0) as (o' & Ho' & Hfr). simpl.
      destruct (decide (l = l0)) as [->|Hne]; [rewrite Hl in Ho'; discriminate|].
      rewrite list_lookup_insert_ne by done. eauto.
    + intros t l o o' Hl Hfr' Ht l0 o0 H0. destruct (Ht l0 o0 H0) as (o1 & Ho1 & Hfr). simpl.
      destruct (decide (l = l0)) as [->|Hne].
      * rewrite list_lookup_insert_eq by (by eapply lookup_lt_Some).
        eexists. split; [reflexivity|]. rewrite Hl in Ho1. inversion Ho1; subst. congruence.
      * rewrite list_lookup_insert_ne by done. eauto.
    + intros t objs Ht l0 o0 H0. destruct (Ht l0 o0 H0) as (o' & Ho' & Hfr). simpl.
      rewrite lookup_app_l by (by eapply lookup_lt_Some). eauto.
Qed.

Lemma run_graph_prop_keeps_failed_reason_witness :
  exists o',
    heap (snd (run_graph_prop (only rule_same) (unary_graph aten_add) [VSpec 0%nat]
                 with_old_result)) !! 1%nat = Some (OOutputSharding o') /\
    failed_reason o' = Some "old".
Proof.
  apply (proj2 (run_graph_prop_keeps_failed_reason (only rule_same) (unary_graph aten_add)
                  [VSpec 0%nat] with_old_result _ _ (surjective_pairing _)) 1%nat
               (mkOutputSharding VNone None (Some "old") None)).
  reflexivity.
Defined.

(** ** Counting rule invocations *)

Lemma calls_between_refl s : calls_between s s 0.
Proof. exists []. by rewrite app_nil_r. Qed.

Lemma calls_between_trans s s1 s2 a b :
  calls_between s s1 a -> calls_between s1 s2 b -> calls_between s s2 (a + b).
Proof.
  intros (e1 & H1 & L1) (e2 & H2 & L2). exists (e1 ++ e2).
  rewrite H2, H1, <- app_assoc, length_app. split; [done | lia].
Qed.

Lemma calls_between_weaken s s' a b :
  (a <= b)%nat -> calls_between s s' a -> calls_between s s' b.
Proof. intros Hab (e & H & L). exists e. split; [done | lia]. Qed.

Lemma invokes_none {A} (m : M A) :
  (forall c, preserves (fun t => rule_calls t = c) m) -> invokes_at_most 0 m.
Proof.
  intros Hm s r s' H. exists []. rewrite app_nil_r. split; [|simpl; lia].
  exact (Hm (rule_calls s) s r s' H eq_refl).
Qed.

Lemma invokes_bind {A B} a b (m : M A) (k : A -> M B) :
  invokes_at_most a m -> (forall x, invokes_at_most b (k x)) ->
  invokes_at_most (a + b) (bind m k).
Proof.
  intros Hm Hk s r s' H.
  apply bind_inv in H as [(x & s1 & H1 & H2)|(e & H1 & _)].
  - eapply calls_between_trans; [by eapply Hm | by eapply Hk].
  - eapply calls_between_weaken; [|by eapply Hm]. lia.
Qed.

Lemma invokes_weaken {A} a b (m : M A) :
  (a <= b)%nat -> invokes_at_most a m -> invokes_at_most b m.
Proof. intros Hab Hm s r s' H. eapply calls_between_weaken; eauto. Qed.

Lemma invokes_try_except {A} a (m : M A) h :
  invokes_at_most a m -> invokes_at_most a (try_except m h).
Proof.
  intros Hm s r s' H. unfold try_except in H.
  destruct (m s) as [[x|e] s1] eqn:E; inversion H; subst; by eapply Hm.
Qed.

Lemma invokes_call_rule op_call f schema : invokes_at_most 1 (call_rule op_call f schema).
Proof.
  intros s r s' H. exists [(op_call, schema)]. split; [|simpl; lia].
  destruct (f schema (heap s)) as [e|fresh res] eqn:Hf.
  - rewrite (call_rule_raises _ _ _ _ _ Hf) in H. by inversion H.
  - rewrite (call_rule_returns _ _ _ _ _ _ Hf) in H. by inversion H.
Qed.

Lemma invokes_none_unwrap v :
  invokes_at_most 0 (tree_map_only isinstance_Node unwrap_spec_from_node v).
Proof. apply invokes_none. intros c. by apply preserves_unwrap_tree. Qed.

Lemma invokes_none_setattr l attr f : invokes_at_most 0 (setattr_sharding l attr f).
Proof. apply invokes_none. intros c. by apply preserves_setattr_sharding. Qed.

Lemma invokes_none_read l attr : invokes_at_most 0 (read_sharding l attr).
Proof. apply invokes_none. intros c. apply preserves_read_sharding. Qed.

Lemma invokes_none_set_meta n v : invokes_at_most 0 (set_meta_sharding n v).
Proof. apply invokes_none. intros c. by apply preserves_set_meta_sharding. Qed.

Lemma invokes_none_ret {A} (a : A) : invokes_at_most 0 (ret a).
Proof. apply invokes_none. intros c. apply preserves_ret. Qed.

Lemma invokes_none_raise {A} e : invokes_at_most 0 (@raise A e).
Proof. apply invokes_none. intros c. apply preserves_raise. Qed.

Lemma invokes_none_from_option {A} (o : option A) e : invokes_at_most 0 (from_option o e).
Proof. apply invokes_none. intros c. apply preserves_from_option. Qed.

Lemma invokes_run_op_prop reg node : invokes_at_most 2 (run_op_prop reg node).
Proof.
  unfold run_op_prop. destruct (reg (target node)) as [f|];
    [|eapply invokes_weaken; [|apply invokes_none_raise]; lia].
  apply (invokes_bind 0 2); [apply invokes_none_unwrap | intros a1].
  apply (invokes_bind 0 2); [apply invokes_none_unwrap | intros a2].
  apply (invokes_bind 1 1); [apply invokes_try_except, invokes_call_rule | intros l].
  apply (invokes_bind 0 1); [apply invokes_none_set_meta | intros _].
  apply (invokes_bind 0 1); [apply invokes_none_read | intros o].
  apply (invokes_bind 1 0); [| intros; apply invokes_none_ret].
  destruct (is_None (output_spec o));
    [|eapply invokes_weaken; [|apply invokes_none_setattr]; lia].
  destruct (schema_suggestions o) as [sugg|].
  - apply (invokes_bind 0 1); [apply invokes_none_from_option | intros sch].
    apply (invokes_bind 1 0); [apply invokes_call_rule | intros l2].
    apply (invokes_bind 0 0); [apply invokes_none_read | intros o2].
    apply invokes_none_setattr.
  - eapply invokes_weaken with (a := 0%nat); [lia|].
    destruct (failed_reason o); [apply invokes_none_raise | apply invokes_none_setattr].
Qed.

Lemma count_call_function_cons n ns :
  count_call_function (n :: ns) =
  ((if decide (op n = "call_function") then 1 else 0) + count_call_function ns)%nat.
Proof. unfold count_call_function. rewrite filter_cons. by case_decide. Qed.

Lemma invokes_graph_step reg flat lv node :
  invokes_at_most (if decide (op node = "call_function") then 2 else 0)
                  (graph_step reg flat lv node).
Proof.
  destruct (graph_step_cases node) as [H|[H|[H|(H1 & H2 & H3)]]].
  - rewrite graph_step_placeholder, decide_False by (by rewrite ?H).
    apply (invokes_bind 0 0); [apply invokes_none_from_option | intros a].
    apply (invokes_bind 0 0); [| intros; apply invokes_none_ret].
    destruct (isinstance_DTensorSpec a); [apply invokes_none_set_meta | apply invokes_none_ret].
  - rewrite graph_step_call_function, decide_True by done.
    apply (invokes_bind 2 0); [apply invokes_run_op_prop | intros; apply invokes_none_ret].
  - rewrite graph_step_output, decide_False by (by rewrite ?H).
    apply (invokes_bind 0 0); [apply invokes_none_unwrap | intros; apply invokes_none_ret].
  - rewrite graph_step_other, decide_False by done. apply invokes_none_raise.
Qed.

Lemma invokes_graph_loop reg flat ns : forall lv,
  invokes_at_most (2 * count_call_function ns) (graph_loop reg flat ns lv).
Proof.
  induction ns as [|n ns IH]; intros lv; simpl graph_loop.
  - apply invokes_none_ret.
  - rewrite count_call_function_cons.
    eapply invokes_weaken; [|apply invokes_bind; [apply invokes_graph_step | intros; apply IH]].
    case_decide; lia.
Qed.

(** [run_op_prop] invokes the rule of the node at most twice, and a walk
    invokes rules at most twice per call_function node of the graph;
    earlier entries of the log are never dropped. *)
Theorem rule_invocations_bounded reg :
  (forall node s r s',
     run_op_prop reg node s = (r, s') ->
     exists extra, rule_calls s' = rule_calls s ++ extra /\ (length extra <= 2)%nat) /\
  (forall ns flat s r s',
     run_graph_prop reg ns flat s = (r, s') ->
     exists extra, rule_calls s' = rule_calls s ++ extra /\
                   (length extra <= 2 * count_call_function ns)%nat).
Proof.
  split.
  - intros node s r s' H. by apply invokes_run_op_prop in H.
  - intros ns flat s r s'. revert s r s'.
    change (invokes_at_most (2 * count_call_function ns) (run_graph_prop reg ns flat)).
    unfold run_graph_prop.
    eapply invokes_weaken;
      [|apply invokes_bind; [apply invokes_graph_loop | intros lv]].
    { rewrite Nat.add_0_r. done. }
    apply (invokes_bind 0 0); [apply invokes_none_from_option | intros v].
    apply (invokes_bind 0 0); [apply invokes_none_from_option | intros l].
    apply (invokes_bind 0 0); [apply invokes_none_read | intros o].
    apply invokes_none. intros c. by apply preserves_alloc.
Qed.

Lemma rule_invocations_bounded_witness :
  exists extra,
    rule_calls (snd (run_op_prop (only rule_reshard) call_node (at_call spec_repl))) =
      rule_calls (at_call spec_repl) ++ extra /\
    (length extra <= 2)%nat.
Proof.
  apply (proj1 (rule_invocations_bounded (only rule_reshard)) call_node
               (at_call spec_repl) _ _ (surjective_pairing _)).
Defined.

(** ** What a returned result looks like *)

Lemma has_suggestions_snoc h o :
  is_Some (schema_suggestions o) -> has_suggestions (h ++ [OOutputSharding o]) (length h).
Proof. intros H. exists o. by rewrite lookup_snoc. Qed.

(** What [run_op_prop] returns is an object with schema suggestions. *)
Lemma run_op_prop_ok_suggestions reg node s l s' :
  run_op_prop reg node s = (Ok l, s') -> has_suggestions (heap s') l.
Proof.
  intros H. pose proof H as H0. unfold run_op_prop in H0.
  destruct (reg (target node)) as [f|] eqn:Hreg; [|discriminate].
  apply bind_ok_inv in H0 as (a1 & s1 & Hargs & H0).
  apply bind_ok_inv in H0 as (a2 & s2 & Hkw & H0).
  apply bind_ok_inv in H0 as (l0 & s3 & Hcall & _).
  unfold try_except in Hcall.
  destruct (f (node_schema node a1 a2) (heap s2)) as [e|fresh res] eqn:Hf.
  { unfold node_schema in Hf. by rewrite (call_rule_raises _ _ _ _ _ Hf) in Hcall. }
  clear Hcall l0 s3.
  rewrite (run_op_prop_first_call _ _ _ _ _ _ _ _ _ _ Hreg Hargs Hkw Hf) in H.
  set (s4 := after_first_call _ _ _ _ _) in H.
  assert (Hl : heap s4 !! length (heap s2 ++ fresh) = Some (OOutputSharding res))
    by apply lookup_snoc.
  destruct (is_None (output_spec res)).
  - destruct (schema_suggestions res) as [[|sugg rest]|] eqn:Hsugg.
    + discriminate.
    + simpl from_option in H. unfold bind at 1 2 in H. unfold ret at 1 in H.
      unfold bind at 1 in H.
      destruct (f sugg (heap s4)) as [e|fresh2 res2] eqn:Hf2.
      { by rewrite (call_rule_raises _ _ _ _ _ Hf2) in H. }
      rewrite (call_rule_returns _ _ _ _ _ _ Hf2) in H.
      set (s5 := set_heap _ _) in H.
      assert (H2 : heap s5 !! length (heap s4 ++ fresh2) = Some (OOutputSharding res2))
        by apply lookup_snoc.
      assert (H1 : heap s5 !! length (heap s2 ++ fresh) = Some (OOutputSharding res)).
      { simpl. rewrite <- !app_assoc. rewrite (app_assoc (heap s2) fresh).
        by apply list_lookup_middle. }
      unfold bind at 1 in H. rewrite (read_sharding_run _ _ _ _ H2) in H.
      rewrite (setattr_sharding_run _ _ _ _ _ H1) in H. inversion H; subst l s'.
      eexists. simpl. split.
      * apply list_lookup_insert_eq. by eapply lookup_lt_Some.
      * simpl. rewrite Hsugg. eauto.
    + destruct (failed_reason res); [discriminate|].
      rewrite (bind_ok _ _ _ _ _ (setattr_sharding_run _ _ _ _ _ Hl)) in H.
      inversion H; subst l s'. simpl.
      rewrite insert_snoc. apply has_suggestions_snoc. simpl. eauto.
  - rewrite (bind_ok _ _ _ _ _ (setattr_sharding_run _ _ _ _ _ Hl)) in H.
    inversion H; subst l s'. simpl.
    rewrite insert_snoc. apply has_suggestions_snoc. simpl. eauto.
Qed.

Lemma has_suggestions_at h l :
  has_suggestions h l <-> exists x, suggestions_at h l = Some (Some x).
Proof.
  unfold has_suggestions, suggestions_at. split.
  - intros (o & -> & [x Hx]). exists x. by rewrite Hx.
  - intros (x & H). destruct (h !! l) as [[d|o]|]; try discriminate.
    inversion H. exists o. split; [done|]. rewrite H1. eauto.
Qed.

Lemma graph_step_no_call_has_suggestions reg flat lv node s lv' s' l1 :
  op node <> "call_function" ->
  graph_step reg flat lv node s = (Ok lv', s') ->
  has_suggestions (heap s) l1 -> has_suggestions (heap s') l1.
Proof.
  intros Hop Hstep. rewrite !has_suggestions_at.
  assert (Hloop : graph_loop reg flat [node] lv s = (Ok lv', s')).
  { simpl. by rewrite (bind_ok _ _ _ _ _ Hstep). }
  assert (Hns : no_call_function [node]) by (by repeat constructor).
  by rewrite (graph_loop_no_call_suggestions _ _ _ _ _ _ _ l1 Hns Hloop).
Qed.

Lemma mapM_length {A B} (f : A -> M B) (l : list A) : forall s l' s',
  mapM f l s = (Ok l', s') -> length l' = length l.
Proof.
  induction l as [|x xs IH]; intros s l' s' H; simpl in H.
  - by inversion H.
  - apply bind_ok_inv in H as (y & s1 & _ & H).
    apply bind_ok_inv in H as (ys & s2 & Hys & H). inversion H; subst.
    simpl. f_equal. by eapply IH.
Qed.

Lemma graph_step_walk_invariant reg flat lv node s lv' s' :
  graph_step reg flat lv node s = (Ok lv', s') ->
  walk_invariant lv s -> walk_invariant lv' s'.
Proof.
  intros Hstep [Hsh Hsp].
  destruct (graph_step_cases node) as [H|[H|[H|(H1 & H2 & H3)]]].
  - assert (Hop : op node <> "call_function") by (rewrite H; discriminate).
    pose proof (graph_step_no_call_sharding _ _ _ _ _ _ _ Hop Hstep) as Hl.
    pose proof (fun l1 => graph_step_no_call_has_suggestions _ _ _ _ _ _ _ l1 Hop Hstep) as Hk.
    rewrite graph_step_placeholder in Hstep by done.
    apply bind_ok_inv in Hstep as (a & s1 & _ & Hstep).
    apply bind_ok_inv in Hstep as (u & s2 & _ & Hstep). inversion Hstep; subst lv' s2.
    simpl in *. split; [|exact Hsp]. intros l1 Hl1. apply Hk, Hsh. done.
  - rewrite graph_step_call_function in Hstep by done.
    apply bind_ok_inv in Hstep as (l & s1 & Hrun & Hstep). inversion Hstep; subst lv' s1.
    split; [|exact Hsp]. simpl. intros l1 Hl1. inversion Hl1; subst l1.
    by apply run_op_prop_ok_suggestions in Hrun.
  - assert (Hop : op node <> "call_function") by (rewrite H; discriminate).
    pose proof (fun l1 => graph_step_no_call_has_suggestions _ _ _ _ _ _ _ l1 Hop Hstep) as Hk.
    rewrite graph_step_output in Hstep by done.
    apply bind_ok_inv in Hstep as (v & s1 & Hv & Hstep). inversion Hstep; subst lv' s1.
    simpl in *. split; [intros l1 Hl1; by apply Hk, Hsh|].
    intros v' Hv'. inversion Hv'; subst v'.
    apply bind_ok_inv in Hv as (vs' & s2 & _ & Hv). inversion Hv. eauto.
  - rewrite graph_step_other in Hstep by done. discriminate.
Qed.

Lemma graph_loop_walk_invariant reg flat ns : forall lv s lv' s',
  graph_loop reg flat ns lv s = (Ok lv', s') ->
  walk_invariant lv s -> walk_invariant lv' s'.
Proof.
  induction ns as [|n ns IH]; intros lv s lv' s' H HQ; simpl in H.
  - by inversion H; subst.
  - apply bind_ok_inv in H as (lv1 & s1 & H1 & H2).
    eapply IH; [exact H2|]. by eapply graph_step_walk_invariant.
Qed.

(** Whenever [run_op_prop] or [run_graph_prop] returns, the object it
    returns is an OutputSharding whose schema suggestions are not [None]:
    every branch of [run_op_prop] that returns has either assigned
    [[op_schema]] or kept the rule's own list, and the walk carries the
    suggestions of the last node to the result. The object
    [run_graph_prop] returns has moreover a list as output spec, and the
    return statement gives it no failure reason. *)
Theorem returned_results_carry_suggestions reg :
  (forall node s l s',
     run_op_prop reg node s = (Ok l, s') -> has_suggestions (heap s') l) /\
  (forall ns flat s l s',
     run_graph_prop reg ns flat s = (Ok l, s') ->
     exists o vs,
       heap s' !! l = Some (OOutputSharding o) /\
       output_spec o = VList vs /\
       is_Some (schema_suggestions o) /\
       failed_reason o = None).
Proof.
  split; [intros node s l s' H; by apply run_op_prop_ok_suggestions in H|].
  intros ns flat s l s' H. unfold run_graph_prop in H.
  apply bind_ok_inv in H as (lvf & sf & Hloop & H).
  apply bind_ok_inv in H as (v & sf1 & Hv & H).
  apply bind_ok_inv in H as (lo & sf2 & Hlo & H).
  apply bind_ok_inv in H as (o & sf3 & Hread & H).
  destruct (l_output_spec lvf) as [v'|] eqn:Hsp; [|discriminate].
  inversion Hv; subst v' sf1.
  destruct (l_output_sharding lvf) as [lo'|] eqn:Hsh; [|discriminate].
  inversion Hlo; subst lo' sf2.
  unfold read_sharding, bind, get in Hread.
  destruct (heap sf !! lo) as [[d|o']|] eqn:Hheap; try discriminate.
  inversion Hread; subst o' sf3. inversion H; subst l s'. clear Hv Hlo Hread H.
  assert (HQ : walk_invariant (mkLocals 0 None None) s) by (split; intros ?; discriminate).
  destruct (graph_loop_walk_invariant _ _ _ _ _ _ _ Hloop HQ) as [Hs1 Hs2].
  destruct (Hs1 lo Hsh) as (o1 & Ho1 & Hsugg). rewrite Hheap in Ho1. inversion Ho1; subst o1.
  destruct (Hs2 v Hsp) as (vs & ->).
  eexists _, vs. simpl. rewrite lookup_snoc. done.
Qed.

Lemma returned_results_carry_suggestions_witness :
  has_suggestions
    (heap (snd (run_op_prop (only rule_scalar) call_node (at_call spec_repl)))) 1 /\
  exists o vs,
    heap (snd (run_graph_prop (only rule_reshard) (unary_graph aten_add) [VSpec 0%nat]
                 (at_start spec_repl))) !! 4%nat = Some (OOutputSharding o) /\
    output_spec o = VList vs /\
    is_Some (schema_suggestions o) /\
    failed_reason o = None.
Proof.
  split.
  - apply (proj1 (returned_results_carry_suggestions (only rule_scalar)) call_node
             (at_call spec_repl) 1%nat
             (snd (run_op_prop (only rule_scalar) call_node (at_call spec_repl)))).
    vm_compute. reflexivity.
  - apply (proj2 (returned_results_carry_suggestions (only rule_reshard))
             (unary_graph aten_add) [VSpec 0%nat] (at_start spec_repl) 4%nat
             (snd (run_graph_prop (only rule_reshard) (unary_graph aten_add) [VSpec 0%nat]
                     (at_start spec_repl)))).
    vm_compute. reflexivity.
Defined.

(** ** Errors of the graph walk *)

(** A node whose opcode is none of placeholder, call_function and output
    stops the walk with ValueError carrying that opcode; the nodes after it
    are not visited, the state is the one the earlier nodes produced. *)
Theorem unsupported_node_kind reg flat pre node post s0 lv s1 :
  graph_loop reg flat pre (mkLocals 0 None None) s0 = (Ok lv, s1) ->
  op node <> "placeholder" ->
  op node <> "call_function" ->
  op node <> "output" ->
  run_graph_prop reg (pre ++ node :: post) flat s0 = (Raise (ValueError (op node)), s1).
Proof.
  intros Hpre H1 H2 H3. eapply run_graph_prop_raises_at; [exact Hpre|].
  by rewrite graph_step_other.
Qed.

Lemma unsupported_node_kind_witness :
  run_graph_prop (only rule_same)
    ([mkNode "arg0" "placeholder" aten_add (VList []) (VDict [])] ++
     mkNode "w" "get_attr" aten_add (VList []) (VDict []) :: unary_graph aten_add)
    [VSpec 0%nat] (at_start spec_shard0)
  = (Raise (ValueError "get_attr"), at_call spec_shard0).
Proof.
  apply (unsupported_node_kind (only rule_same) [VSpec 0%nat]
           [mkNode "arg0" "placeholder" aten_add (VList []) (VDict [])]
           (mkNode "w" "get_attr" aten_add (VList []) (VDict []))
           (unary_graph aten_add) (at_start spec_shard0) (mkLocals 1 None None));
    [reflexivity | discriminate..].
Defined.

Lemma graph_step_no_output_spec reg flat lv node s lv' s' :
  op node <> "output" ->
  graph_step reg flat lv node s = (Ok lv', s') ->
  l_output_spec lv' = l_output_spec lv.
Proof.
  intros Hop H. destruct (graph_step_cases node) as [H0|[H0|[H0|(H1 & H2 & H3)]]].
  - rewrite graph_step_placeholder in H by done.
    apply bind_ok_inv in H as (a & s1 & _ & H).
    apply bind_ok_inv in H as (u & s2 & _ & H). by inversion H.
  - rewrite graph_step_call_function in H by done.
    apply bind_ok_inv in H as (a & s1 & _ & H). by inversion H.
  - done.
  - rewrite graph_step_other in H by done. discriminate.
Qed.

Lemma graph_loop_no_output_spec reg flat ns :
  Forall (fun n => op n <> "output") ns -> forall lv s lv' s',
  graph_loop reg flat ns lv s = (Ok lv', s') ->
  l_output_spec lv' = l_output_spec lv.
Proof.
  induction 1 as [|n ns Hn _ IH]; intros lv s lv' s' H; simpl in H.
  - by inversion H.
  - apply bind_ok_inv in H as (lv1 & s1 & H1 & H2).
    rewrite (IH _ _ _ _ H2). by eapply graph_step_no_output_spec.
Qed.

(** A graph without an output node never yields a result either: when the
    walk gets through all its nodes, call_function nodes included, the
    return statement finds [output_spec] unbound. *)
Theorem run_graph_prop_needs_output reg ns flat s lv s1 :
  Forall (fun n => op n <> "output") ns ->
  graph_loop reg flat ns (mkLocals 0 None None) s = (Ok lv, s1) ->
  run_graph_prop reg ns flat s = (Raise (UnboundLocalError "output_spec"), s1).
Proof.
  intros Hns Hloop. unfold run_graph_prop. rewrite (bind_ok _ _ _ _ _ Hloop).
  pose proof (graph_loop_no_output_spec _ _ _ Hns _ _ _ _ Hloop) as Hsp. simpl in Hsp.
  unfold bind. by rewrite Hsp.
Qed.

Lemma run_graph_prop_needs_output_witness :
  exists s1,
    run_graph_prop (only rule_same)
      [mkNode "arg0" "placeholder" aten_add (VList []) (VDict []); call_node]
      [VSpec 0%nat] (at_start spec_shard0)
    = (Raise (UnboundLocalError "output_spec"), s1).
Proof.
  eexists.
  apply (run_graph_prop_needs_output (only rule_same)
           [mkNode "arg0" "placeholder" aten_add (VList []) (VDict []); call_node]
           [VSpec 0%nat] (at_start spec_shard0) (mkLocals 1 (Some 1%nat) None)).
  - repeat constructor; discriminate.
  - vm_compute. reflexivity.
Defined.

(** ** The registry *)

Lemma run_op_prop_register_other reg o rule_func node :
  target node <> o ->
  run_op_prop (register_sharding_prop_rule reg o rule_func) node = run_op_prop reg node.
Proof.
  intros Hne. unfold run_op_prop, register_sharding_prop_rule. by rewrite decide_False.
Qed.

Lemma graph_loop_register_other reg o rule_func flat ns :
  Forall (fun n => op n = "call_function" -> target n <> o) ns ->
  forall lv s,
    graph_loop (register_sharding_prop_rule reg o rule_func) flat ns lv s =
    graph_loop reg flat ns lv s.
Proof.
  induction 1 as [|n ns Hn _ IH]; intros lv s; simpl; [reflexivity|].
  assert (Hstep : graph_step (register_sharding_prop_rule reg o rule_func) flat lv n =
                  graph_step reg flat lv n).
  { destruct (graph_step_cases n) as [H|[H|[H|(H1 & H2 & H3)]]].
    - by rewrite !graph_step_placeholder.
    - rewrite !graph_step_call_function by done. by rewrite run_op_prop_register_other by auto.
    - by rewrite !graph_step_output.
    - by rewrite !graph_step_other. }
  rewrite Hstep. unfold bind.
  destruct (graph_step reg flat lv n s) as [[lv'|e] s1]; [apply IH | reflexivity].
Qed.

(** Registration is a dictionary store: the rule registered last for an
    operator is the one found, and it is found for that operator only. A
    walk over a graph none of whose call_function nodes targets the
    operator runs exactly as without the registration. *)
Theorem register_sharding_prop_rule_frame reg o rule_func :
  (forall earlier,
     register_sharding_prop_rule (register_sharding_prop_rule reg o earlier) o rule_func o
     = Some rule_func) /\
  (forall o', o' <> o -> register_sharding_prop_rule reg o rule_func o' = reg o') /\
  (forall ns flat s,
     Forall (fun n => op n = "call_function" -> target n <> o) ns ->
     run_graph_prop (register_sharding_prop_rule reg o rule_func) ns flat s =
     run_graph_prop reg ns flat s).
Proof.
  split; [|split].
  - intros earlier. unfold register_sharding_prop_rule. by rewrite decide_True.
  - intros o' Hne. unfold register_sharding_prop_rule. by rewrite decide_False.
  - intros ns flat s Hns. unfold run_graph_prop. unfold bind at 1 5.
    by rewrite graph_loop_register_other.
Qed.

Lemma register_sharding_prop_rule_frame_witness :
  run_graph_prop (register_sharding_prop_rule (only rule_same) aten_relu rule_raises)
    (unary_graph aten_add) [VSpec 0%nat] (at_start spec_shard0)
  = run_graph_prop (only rule_same) (unary_graph aten_add) [VSpec 0%nat]
      (at_start spec_shard0).
Proof.
  apply (proj2 (proj2 (register_sharding_prop_rule_frame (only rule_same) aten_relu
                         rule_raises))).
  repeat constructor; intros _; discriminate.
Defined.

(** ** Unwrapping a node *)

Lemma from_option_state {A} (o : option A) e s r s' :
  from_option o e s = (r, s') -> s' = s.
Proof. destruct o; intros H; by inversion H. Qed.

Lemma setattr_tensor_meta_raise spec tm s e s' :
  setattr_tensor_meta spec tm s = (Raise e, s') -> s' = s.
Proof.
  destruct spec; simpl; try (intros H; by inversion H).
  - unfold bind, get, modify, raise.
    destruct (heap s !! l) as [[d|o]|]; intros H; by inversion H.
  - unfold setattr_sharding, read_sharding, bind, get, modify, raise, ret.
    destruct (heap s !! l) as [[d|o]|]; intros H; by inversion H.
Qed.

Lemma setattr_tensor_meta_twice spec tm s s1 :
  setattr_tensor_meta spec tm s = (Ok tt, s1) ->
  setattr_tensor_meta spec tm s1 = (Ok tt, s1).
Proof.
  destruct spec; simpl; try discriminate.
  - unfold bind, get, modify, raise.
    destruct (heap s !! l) as [[d|o]|] eqn:E; intros H; inversion H; subst s1. simpl.
    rewrite list_lookup_insert_eq by (by eapply lookup_lt_Some).
    unfold set_heap. simpl. by rewrite list_insert_insert_eq.
  - unfold setattr_sharding, read_sharding, bind, get, modify, raise, ret.
    destruct (heap s !! l) as [[d|o]|] eqn:E; intros H; inversion H; subst s1. simpl.
    rewrite list_lookup_insert_eq by (by eapply lookup_lt_Some).
    unfold set_heap. simpl. by rewrite list_insert_insert_eq.
Qed.

(** [unwrap_spec_from_node] changes nothing when it raises (a missing
    [sharding] or [tensor_meta] key is found before the assignment), and
    it is idempotent when it returns: unwrapping the node again returns the
    same spec and leaves the state as the first unwrapping left it. *)
Theorem unwrap_spec_from_node_idempotent n s :
  (forall e s', unwrap_spec_from_node n s = (Raise e, s') -> s' = s) /\
  (forall v s1, unwrap_spec_from_node n s = (Ok v, s1) ->
                unwrap_spec_from_node n s1 = (Ok v, s1)).
Proof.
  destruct n as [| | | |nm| | |]; simpl;
    try (split; [intros e s' H; by inversion H | intros v s1 H; discriminate]).
  split.
  - intros e s' H.
    apply bind_inv in H as [(s0 & t & Hget & H)|(e' & Hget & _)]; [|discriminate].
    inversion Hget; subst s0 t.
    apply bind_inv in H as [(spec & t & Hsp & H)|(e' & Hsp & _)];
      [|by apply from_option_state in Hsp].
    apply from_option_state in Hsp as ->.
    apply bind_inv in H as [(tm & t & Htm & H)|(e' & Htm & _)];
      [|by apply from_option_state in Htm].
    apply from_option_state in Htm as ->.
    apply bind_inv in H as [(u & t & _ & H)|(e' & H & _)];
      [discriminate | by eapply setattr_tensor_meta_raise].
  - intros v s1 H.
    apply bind_ok_inv in H as (s0 & t & Hget & H). inversion Hget; subst s0 t.
    apply bind_ok_inv in H as (spec & t & Hsp & H).
    pose proof (from_option_state _ _ _ _ _ Hsp) as ->.
    apply bind_ok_inv in H as (tm & t & Htm & H).
    pose proof (from_option_state _ _ _ _ _ Htm) as ->.
    apply bind_ok_inv in H as ([] & s2 & Hset & H). inversion H; subst v s2.
    assert (Hm : metas s1 = metas s).
    { apply (preserves_setattr_tensor_meta (fun t => metas t = metas s)) in Hset; auto. }
    unfold bind at 1. unfold get at 1. rewrite Hm.
    destruct (meta_sharding (meta_of (metas s) nm)); [|discriminate].
    destruct (meta_tensor_meta (meta_of (metas s) nm)); [|discriminate].
    inversion Hsp; inversion Htm; subst. simpl from_option.
    unfold bind at 1 2. unfold ret at 1 2.
    by rewrite (bind_ok _ _ _ _ _ (setattr_tensor_meta_twice _ _ _ _ Hset)).
Qed.

Lemma unwrap_spec_from_node_idempotent_witness :
  unwrap_spec_from_node (VNode "arg0") (at_call (with_tensor_meta tm0 spec_repl))
  = (Ok (VSpec 0%nat), at_call (with_tensor_meta tm0 spec_repl)).
Proof.
  apply (proj2 (unwrap_spec_from_node_idempotent (VNode "arg0") (at_call spec_repl))).
  reflexivity.
Defined.

(** ** Failures of [propagate] before the walk *)

Lemma raises_only_bind {A B} Q (m : M A) (k : A -> M B) :
  raises_only Q m -> (forall a, raises_only Q (k a)) -> raises_only Q (bind m k).
Proof.
  intros Hm Hk s e s' H. apply bind_inv in H as [(a & s1 & _ & H)|(e' & H & He)].
  - by eapply Hk.
  - inversion He; subst. by eapply Hm.
Qed.

Lemma raises_only_ret {A} Q (a : A) : raises_only Q (ret a).
Proof. intros s e s' H. discriminate. Qed.

Lemma raises_only_mapM {A B} Q (f : A -> M B) (l : list A) :
  Forall (fun x => raises_only Q (f x)) l -> raises_only Q (mapM f l).
Proof.
  induction 1 as [|x xs Hx _ IH]; simpl.
  - apply raises_only_ret.
  - apply raises_only_bind; [exact Hx | intros y].
    apply raises_only_bind; [exact IH | intros ys]. apply raises_only_ret.
Qed.

Lemma raises_only_tree_map_only Q ty fn :
  (forall v, raises_only Q (fn v)) -> forall v, raises_only Q (tree_map_only ty fn v).
Proof.
  intros Hfn v.
  induction v as [| | | | | |vs IH|kvs IH] using value_rect'; simpl;
    try (destruct (ty _); [apply Hfn | apply raises_only_ret]).
  - apply raises_only_bind; [by apply raises_only_mapM | intros; apply raises_only_ret].
  - apply raises_only_bind; [| intros; apply raises_only_ret].
    apply raises_only_mapM. eapply Forall_impl; [exact IH|].
    intros kv Hkv. simpl in Hkv.
    apply raises_only_bind; [exact Hkv | intros; apply raises_only_ret].
Qed.

Lemma rebuild_raises_assertion v :
  raises_only is_AssertionError
    (tree_map_only isinstance_DTensorSpec _rebuild_tensor_from_dtensor v).
Proof.
  apply raises_only_tree_map_only. clear v. intros v s e s' H.
  unfold _rebuild_tensor_from_dtensor, bind, get in H.
  destruct v; try (inversion H; by eexists).
  destruct (heap s !! l) as [[d|o]|]; try (inversion H; by eexists).
  destruct (tensor_meta d); inversion H. by eexists.
Qed.

Lemma mapM_rebuild_ok {A B} (g : A -> M B) (F : A -> list value) (l : list A) :
  Forall (fun x => forall s y s', g x s = (Ok y, s') ->
                     s' = s /\ Forall (has_tensor_meta (heap s)) (F x)) l ->
  forall s l' s', mapM g l s = (Ok l', s') ->
    Forall (has_tensor_meta (heap s)) (flat_map F l).
Proof.
  induction 1 as [|x xs Hx _ IH]; intros s l' s' H; simpl in *.
  - constructor.
  - apply bind_ok_inv in H as (y & s1 & Hy & H).
    apply bind_ok_inv in H as (ys & s2 & Hys & _).
    destruct (Hx _ _ _ Hy) as [-> Hh]. apply Forall_app. split; [done|]. by eapply IH.
Qed.

(** Fake operands are built only when every operand spec has its tensor
    metadata. *)
Lemma rebuild_ok v : forall s fa s',
  tree_map_only isinstance_DTensorSpec _rebuild_tensor_from_dtensor v s = (Ok fa, s') ->
  all_have_tensor_meta (heap s) v.
Proof.
  unfold all_have_tensor_meta.
  induction v as [| | | | | |vs IH|kvs IH] using value_rect'; intros s fa s' H;
    simpl in *; try (by repeat constructor).
  - repeat constructor. simpl. unfold _rebuild_tensor_from_dtensor, bind, get in H.
    destruct (heap s !! l) as [[d|o]|]; try discriminate.
    destruct (tensor_meta d) eqn:E; [eauto | discriminate].
  - apply bind_ok_inv in H as (vs' & s1 & H & _).
    eapply mapM_rebuild_ok; [|exact H].
    eapply Forall_impl; [exact IH|]. intros x Hx t y t' Ht. split; [|by eapply Hx].
    by eapply rebuild_pure.
  - apply bind_ok_inv in H as (kvs' & s1 & H & _).
    eapply (mapM_rebuild_ok _ (fun kv => tree_flatten (snd kv))); [|exact H].
    eapply Forall_impl; [exact IH|]. intros x Hx t y t' Ht. simpl in Hx.
    apply bind_ok_inv in Ht as (y' & t1 & Ht & Hr). inversion Hr; subst.
    split; [by eapply rebuild_pure | by eapply Hx].
Qed.

(** [propagate] does nothing before the trial graph exists. When some
    operand spec of the schema lacks tensor metadata it raises
    AssertionError, and when the tracer fails it raises the tracer's error;
    in both cases the state is untouched: no graph is installed, no rule is
    invoked. *)
Theorem propagate_fails_before_graph G reg op_call schema s :
  (~ (all_have_tensor_meta (heap s) (args_schema schema) /\
      all_have_tensor_meta (heap s) (kwargs_schema schema)) ->
   exists msg, propagate G reg op_call schema s = (Raise (AssertionError msg), s)) /\
  (forall fa fk e,
     tree_map_only isinstance_DTensorSpec _rebuild_tensor_from_dtensor (args_schema schema) s
       = (Ok fa, s) ->
     tree_map_only isinstance_DTensorSpec _rebuild_tensor_from_dtensor (kwargs_schema schema) s
       = (Ok fk, s) ->
     G op_call fa fk = inl e ->
     propagate G reg op_call schema s = (Raise e, s)).
Proof.
  split.
  - intros Hno. unfold propagate.
    destruct (tree_map_only isinstance_DTensorSpec _rebuild_tensor_from_dtensor
                (args_schema schema) s) as [[fa|e] s1] eqn:Ha.
    + pose proof (rebuild_pure _ _ _ _ Ha) as ->.
      rewrite (bind_ok _ _ _ _ _ Ha).
      destruct (tree_map_only isinstance_DTensorSpec _rebuild_tensor_from_dtensor
                  (kwargs_schema schema) s) as [[fk|e] s1] eqn:Hk.
      * destruct Hno. split; by eapply rebuild_ok.
      * pose proof (rebuild_pure _ _ _ _ Hk) as ->.
        destruct (rebuild_raises_assertion _ _ _ _ Hk) as [msg ->].
        exists msg. by rewrite (bind_raise _ _ _ _ _ Hk).
    + pose proof (rebuild_pure _ _ _ _ Ha) as ->.
      destruct (rebuild_raises_assertion _ _ _ _ Ha) as [msg ->].
      exists msg. by rewrite (bind_raise _ _ _ _ _ Ha).
  - intros fa fk e Ha Hk HG. unfold propagate.
    by rewrite (bind_ok _ _ _ _ _ Ha), (bind_ok _ _ _ _ _ Hk), HG.
Qed.

Lemma propagate_fails_before_graph_witness :
  exists msg,
    propagate (trace_unary aten_add) (only rule_same) aten_add (unary_schema aten_add)
      (at_start (mkDTensorSpec [Shard 0] None))
    = (Raise (AssertionError msg), at_start (mkDTensorSpec [Shard 0] None)).
Proof.
  apply (proj1 (propagate_fails_before_graph (trace_unary aten_add) (only rule_same)
                  aten_add (unary_schema aten_add)
                  (at_start (mkDTensorSpec [Shard 0] None)))).
  intros [H _]. apply Forall_cons_1 in H as [(d & tm & Hd & Htm) _].
  vm_compute in Hd. inversion Hd; subst d. discriminate.
Defined.

(** ** The cache never shrinks *)

Lemma cache_store_keys h q v c :
  (cache_store h q v c).*1 = c.*1 \/ (cache_store h q v c).*1 = c.*1 ++ [q].
Proof.
  induction c as [|[k v'] c IH].
  - by right.
  - simpl cache_store. destruct (schema_eqb h k q); rewrite !fmap_cons; simpl fst; [by left|].
    destruct IH as [IH|IH]; rewrite IH; [by left | by right].
Qed.

(** The caching propagator never evicts: after any call the keys of the
    cache are the keys it had, in their order, possibly followed by the
    schema of the call. A call that raises leaves the cache as it was, so
    a failed propagation is not remembered. *)
Theorem cache_never_evicts G reg op_call q s r s' :
  CachingPropagator.propagate G reg op_call q s = (r, s') ->
  ((cached_prop_results s').*1 = (cached_prop_results s).*1 \/
   (cached_prop_results s').*1 = (cached_prop_results s).*1 ++ [q]) /\
  (forall e, r = Raise e -> cached_prop_results s' = cached_prop_results s).
Proof.
  intros H. unfold CachingPropagator.propagate in H.
  apply bind_inv in H as [(s0 & t & Hget & H)|(e' & Hget & _)]; [|discriminate].
  inversion Hget; subst s0 t.
  destruct (cache_lookup (heap s) q (cached_prop_results s)) as [cached|].
  { inversion H; subst. split; [by left | done]. }
  apply bind_inv in H as [(l & s1 & Hrun & H)|(e' & Hrun & _)].
  - apply propagate_keeps_cache in Hrun. inversion H; subst r s'. simpl.
    rewrite Hrun. split; [apply cache_store_keys | discriminate].
  - apply propagate_keeps_cache in Hrun. rewrite Hrun. split; [by left | done].
Qed.

Lemma cache_never_evicts_witness :
  cached_prop_results (snd (CachingPropagator.propagate (trace_unary aten_add)
    (only rule_raises) aten_add (unary_schema aten_add) (at_start spec_shard0)))
  = cached_prop_results (at_start spec_shard0).
Proof.
  apply (proj2 (cache_never_evicts (trace_unary aten_add) (only rule_raises) aten_add
                  (unary_schema aten_add) (at_start spec_shard0) _ _
                  (surjective_pairing _))
               (RuntimeError_propagation_failed aten_add (unary_schema aten_add)
                  (RuleError "boom"))).
  vm_compute. reflexivity.
Defined.

(** ** Arguments that cannot be unwrapped *)

(** The rule is invoked only after every argument has been unwrapped: when
    unwrapping the positional or the keyword arguments of the node raises,
    [run_op_prop] raises that same exception, no rule has been invoked and
    no node metadata has been written. *)
Theorem run_op_prop_argument_error reg node f s :
  reg (target node) = Some f ->
  (forall e s1,
     tree_map_only isinstance_Node unwrap_spec_from_node (args node) s = (Raise e, s1) ->
     run_op_prop reg node s = (Raise e, s1) /\
     rule_calls s1 = rule_calls s /\ metas s1 = metas s) /\
  (forall a1 s1 e s2,
     tree_map_only isinstance_Node unwrap_spec_from_node (args node) s = (Ok a1, s1) ->
     tree_map_only isinstance_Node unwrap_spec_from_node (kwargs node) s1 = (Raise e, s2) ->
     run_op_prop reg node s = (Raise e, s2) /\
     rule_calls s2 = rule_calls s /\ metas s2 = metas s).
Proof.
  intros Hreg.
  assert (Hmetas : forall v t r t',
            tree_map_only isinstance_Node unwrap_spec_from_node v t = (r, t') ->
            metas t' = metas t).
  { intros v t r t' H.
    apply (preserves_unwrap_tree (fun u => metas u = metas t)) in H; auto. }
  split.
  - intros e s1 Ha. unfold run_op_prop. rewrite Hreg, (bind_raise _ _ _ _ _ Ha).
    split; [done|]. split; [by eapply unwrap_tree_rule_calls | by eapply Hmetas].
  - intros a1 s1 e s2 Ha Hk. unfold run_op_prop.
    rewrite Hreg, (bind_ok _ _ _ _ _ Ha), (bind_raise _ _ _ _ _ Hk).
    split; [done|]. split.
    + rewrite (unwrap_tree_rule_calls _ _ _ _ Hk). by eapply unwrap_tree_rule_calls.
    + rewrite (Hmetas _ _ _ _ Hk). by eapply Hmetas.
Qed.

Lemma run_op_prop_argument_error_witness :
  run_op_prop (only rule_same) call_node (at_start spec_shard0)
  = (Raise (KeyError "sharding"), at_start spec_shard0).
Proof.
  apply (proj1 (run_op_prop_argument_error (only rule_same) call_node rule_same
                  (at_start spec_shard0) eq_refl)).
  reflexivity.
Defined.

(** ** Metadata flowing through the graph *)

Lemma mapM_subst {A B} (m : gmap string node_meta) (g : A -> M B) (G : A -> B) (l : list A) :
  Forall (fun x => forall s y s', metas s = m -> g x s = (Ok y, s') ->
                     y = G x /\ metas s' = m) l ->
  forall s l' s', metas s = m -> mapM g l s = (Ok l', s') ->
    l' = map G l /\ metas s' = m.
Proof.
  induction 1 as [|x xs Hx _ IH]; intros s l' s' Hm H; simpl in H.
  - inversion H; by subst.
  - apply bind_ok_inv in H as (y & s1 & Hy & H).
    apply bind_ok_inv in H as (ys & s2 & Hys & H). inversion H; subst l' s2.
    destruct (Hx _ _ _ Hm Hy) as [-> Hm1].
    destruct (IH _ _ _ Hm1 Hys) as [-> Hm2]. done.
Qed.

Lemma unwrap_tree_subst m v : forall s v' s',
  metas s = m ->
  tree_map_only isinstance_Node unwrap_spec_from_node v s = (Ok v', s') ->
  v' = subst_sharding m v /\ metas s' = m.
Proof.
  induction v as [| | | |nm| |vs IH|kvs IH] using value_rect'; intros s v' s' Hm H;
    simpl in H; try (inversion H; by subst).
  - apply bind_ok_inv in H as (s0 & t & Hget & H). inversion Hget; subst s0 t.
    apply bind_ok_inv in H as (spec & t & Hsp & H).
    pose proof (from_option_state _ _ _ _ _ Hsp) as ->.
    apply bind_ok_inv in H as (tm & t & Htm & H).
    pose proof (from_option_state _ _ _ _ _ Htm) as ->.
    apply bind_ok_inv in H as ([] & s2 & Hset & H). inversion H; subst v' s2.
    apply (preserves_setattr_tensor_meta (fun t => metas t = m)) in Hset; auto.
    split; [|by apply Hset]. simpl. rewrite <- Hm.
    destruct (meta_sharding (meta_of (metas s) nm)); [by inversion Hsp | discriminate].
  - apply bind_ok_inv in H as (vs' & s1 & H & Hr). inversion Hr; subst v' s1.
    destruct (mapM_subst m _ (subst_sharding m) vs IH _ _ _ Hm H) as [-> Hm']. done.
  - apply bind_ok_inv in H as (kvs' & s1 & H & Hr). inversion Hr; subst v' s1.
    apply (mapM_subst m _ (fun kv => (fst kv, subst_sharding m (snd kv)))) in H as [-> Hm'];
      [done | | done].
    eapply Forall_impl; [exact IH|]. intros kv Hkv t y t' Ht Hy. simpl in Hkv.
    apply bind_ok_inv in Hy as (y' & t1 & Hy & Hr'). inversion Hr'; subst y t1.
    by destruct (Hkv _ _ _ Ht Hy) as [-> ?].
Qed.

Lemma call_rule_log op_call f schema s r s' :
  call_rule op_call f schema s = (r, s') ->
  rule_calls s' = rule_calls s ++ [(op_call, schema)].
Proof.
  intros H. destruct (f schema (heap s)) as [e|fresh res] eqn:Hf.
  - rewrite (call_rule_raises _ _ _ _ _ Hf) in H. by inversion H.
  - rewrite (call_rule_returns _ _ _ _ _ _ Hf) in H. by inversion H.
Qed.

(** The schema [run_op_prop] hands to the rule is the target's signature
    with the argument trees of the node in which every argument node is
    replaced by what it carries under [meta["sharding"]]; plain values and
    the nesting of lists and dicts are kept. Whatever [run_op_prop] does,
    the rule is either not invoked at all, which only happens when
    [run_op_prop] raises, or invoked first on that schema and at most once
    more. When the arguments unwrap, the rule is invoked on that schema,
    and if the rule raises on it, the RuntimeError of [run_op_prop]
    carries that schema and that exception. *)
Theorem run_op_prop_invokes_rule_on_substituted_schema reg node f s r s' :
  reg (target node) = Some f ->
  run_op_prop reg node s = (r, s') ->
  let schema := mkOpSchema (_schema (target node))
                           (subst_sharding (metas s) (args node))
                           (subst_sharding (metas s) (kwargs node)) in
  ((exists e, r = Raise e /\ rule_calls s' = rule_calls s) \/
   (exists extra,
      rule_calls s' = rule_calls s ++ (target node, schema) :: extra /\
      (length extra <= 1)%nat)) /\
  (forall a1 s1 a2 s2,
     tree_map_only isinstance_Node unwrap_spec_from_node (args node) s = (Ok a1, s1) ->
     tree_map_only isinstance_Node unwrap_spec_from_node (kwargs node) s1 = (Ok a2, s2) ->
     (exists extra, rule_calls s' = rule_calls s ++ (target node, schema) :: extra) /\
     forall e,
       f schema (heap s2) = RuleRaises e ->
       r = Raise (RuntimeError_propagation_failed (target node) schema e)).
Proof.
  intros Hreg H schema. unfold run_op_prop in H. rewrite Hreg in H.
  apply bind_inv in H as [(a1 & s1 & Ha & H)|(e & Ha & ->)].
  2:{ split; [left; exists e; split; [done | by eapply unwrap_tree_rule_calls]|].
      intros a1 s1 a2 s2 Ha'. rewrite Ha in Ha'. discriminate. }
  destruct (unwrap_tree_subst (metas s) _ _ _ _ eq_refl Ha) as [-> Hm1].
  pose proof (unwrap_tree_rule_calls _ _ _ _ Ha) as Hc1.
  apply bind_inv in H as [(a2 & s2 & Hk & H)|(e & Hk & ->)].
  2:{ split.
      - left. exists e. split; [done|]. rewrite <- Hc1. by eapply unwrap_tree_rule_calls.
      - intros a1' s1' a2' s2' Ha' Hk'. rewrite Ha in Ha'. inversion Ha'; subst a1' s1'.
        rewrite Hk in Hk'. discriminate. }
  destruct (unwrap_tree_subst (metas s) _ _ _ _ Hm1 Hk) as [-> Hm2].
  pose proof (unwrap_tree_rule_calls _ _ _ _ Hk) as Hc2. rewrite Hc1 in Hc2.
  fold schema in H.
  assert (Hlog : (exists extra,
             rule_calls s' = rule_calls s ++ (target node, schema) :: extra /\
             (length extra <= 1)%nat) /\
          forall e, f schema (heap s2) = RuleRaises e ->
            r = Raise (RuntimeError_propagation_failed (target node) schema e)).
  { apply bind_inv in H as [(l & s3 & Hcall & H)|(e & Hcall & ->)].
    - unfold try_except in Hcall.
      destruct (call_rule (target node) f schema s2) as [[l'|e'] s3'] eqn:Hcr;
        inversion Hcall; subst l' s3'.
      pose proof (call_rule_log _ _ _ _ _ _ Hcr) as Hc3. rewrite Hc2 in Hc3.
      split.
      + eapply (invokes_bind 0 1) in H as (extra & Hextra & Hlen).
        * exists extra. rewrite Hextra, Hc3, <- app_assoc. done.
        * apply invokes_none_set_meta.
        * intros _. apply (invokes_bind 0 1); [apply invokes_none_read | intros o].
          apply (invokes_bind 1 0); [| intros; apply invokes_none_ret].
          destruct (is_None (output_spec o));
            [|eapply invokes_weaken; [|apply invokes_none_setattr]; lia].
          destruct (schema_suggestions o) as [sugg|].
          -- apply (invokes_bind 0 1); [apply invokes_none_from_option | intros sch].
             apply (invokes_bind 1 0); [apply invokes_call_rule | intros l2].
             apply (invokes_bind 0 0); [apply invokes_none_read | intros o2].
             apply invokes_none_setattr.
          -- eapply invokes_weaken with (a := 0%nat); [lia|].
             destruct (failed_reason o);
               [apply invokes_none_raise | apply invokes_none_setattr].
      + intros e Hf. by rewrite (call_rule_raises _ _ _ _ _ Hf) in Hcr.
    - unfold try_except in Hcall.
      destruct (call_rule (target node) f schema s2) as [[l'|e'] s3'] eqn:Hcr;
        inversion Hcall; subst e s3'.
      pose proof (call_rule_log _ _ _ _ _ _ Hcr) as Hc3. rewrite Hc2 in Hc3.
      split.
      + exists []. split; [done | simpl; lia].
      + intros e Hf. rewrite (call_rule_raises _ _ _ _ _ Hf) in Hcr. by inversion Hcr. }
  destruct Hlog as [Hlog Hraise]. split; [by right|].
  intros a1' s1' a2' s2' Ha' Hk'. rewrite Ha in Ha'. inversion Ha'; subst s1'.
  rewrite Hk in Hk'. inversion Hk'; subst s2'.
  split; [|exact Hraise]. destruct Hlog as (extra & Hextra & _). eauto.
Qed.

Lemma run_op_prop_invokes_rule_on_substituted_schema_witness :
  exists extra,
    rule_calls (snd (run_op_prop (only rule_reshard) call_node (at_call spec_repl))) =
    rule_calls (at_call spec_repl) ++
    (aten_add, mkOpSchema (_schema aten_add) (VList [VSpec 0%nat]) (VDict [])) :: extra.
Proof.
  apply (proj2 (run_op_prop_invokes_rule_on_substituted_schema (only rule_reshard)
                  call_node rule_reshard (at_call spec_repl) _ _ eq_refl
                  (surjective_pairing _))
               (VList [VSpec 0%nat]) (at_call spec_repl) (VDict []) (at_call spec_repl)
               eq_refl eq_refl).
Defined.

Lemma placeholder_step reg flat lv node s lv' s' :
  op node = "placeholder" ->
  graph_step reg flat lv node s = (Ok lv', s') ->
  exists a,
    flat !! placeholder_idx lv = Some a /\
    lv' = mkLocals (S (placeholder_idx lv)) (l_output_sharding lv) (l_output_spec lv) /\
    s' = (if isinstance_DTensorSpec a
          then set_metas (<[name node := mkNodeMeta (Some a)
                              (meta_tensor_meta (meta_of (metas s) (name node)))]> (metas s)) s
          else s).
Proof.
  intros Hop H. rewrite graph_step_placeholder in H by done.
  apply bind_ok_inv in H as (a & t & Ha & H).
  pose proof (from_option_state _ _ _ _ _ Ha) as ->.
  destruct (flat !! placeholder_idx lv) as [a'|]; [|discriminate]. inversion Ha; subst a'.
  exists a. split; [done|].
  apply bind_ok_inv in H as (u & t & Hset & H). inversion H; subst lv' t. split; [done|].
  destruct (isinstance_DTensorSpec a); by inversion Hset.
Qed.

(** Placeholder nodes with distinct names take the flattened entries in
    order, from the cursor on: after the walk over them the i-th
    placeholder carries the entry at position cursor + i under
    [meta["sharding"]] if that entry is a DTensorSpec and keeps what it had
    otherwise; no other node's metadata and no object of the store is
    changed. *)
Theorem placeholders_receive_entries reg flat ps :
  Forall (fun n => op n = "placeholder") ps ->
  NoDup (name <$> ps) ->
  forall lv s lv' s',
    graph_loop reg flat ps lv s = (Ok lv', s') ->
    heap s' = heap s /\
    (forall n, n ∉ name <$> ps -> meta_of (metas s') n = meta_of (metas s) n) /\
    (forall i node, ps !! i = Some node ->
       meta_sharding (meta_of (metas s') (name node)) =
       match flat !! (placeholder_idx lv + i)%nat with
       | Some (VSpec l) => Some (VSpec l)
       | _ => meta_sharding (meta_of (metas s) (name node))
       end).
Proof.
  induction 1 as [|p ps Hp _ IH]; intros Hnd lv s lv' s' H; simpl in H.
  - inversion H; subst. split; [done|]. split; [done|].
    intros i node Hi. by rewrite lookup_nil in Hi.
  - rewrite fmap_cons in Hnd. apply NoDup_cons in Hnd as [Hnotin Hnd].
    apply bind_ok_inv in H as (lv1 & s1 & Hstep & H).
    destruct (placeholder_step _ _ _ _ _ _ _ Hp Hstep) as (a & Ha & -> & Hs1).
    destruct (IH Hnd _ _ _ _ H) as (Hheap & Hframe & Hatt). simpl in Hatt.
    assert (Hh1 : heap s1 = heap s) by (subst s1; by destruct (isinstance_DTensorSpec a)).
    assert (Hother : forall n, n <> name p -> meta_of (metas s1) n = meta_of (metas s) n).
    { intros n Hn. subst s1. destruct (isinstance_DTensorSpec a); [|done].
      unfold meta_of. simpl. by rewrite lookup_insert_ne. }
    split; [congruence|]. split.
    + intros n Hn. rewrite fmap_cons in Hn. apply not_elem_of_cons in Hn as [Hn1 Hn2].
      rewrite (Hframe n Hn2). by apply Hother.
    + intros [|i] node Hi; simpl in Hi.
      * inversion Hi; subst node. rewrite Nat.add_0_r, Ha, (Hframe _ Hnotin).
        subst s1. destruct a; simpl; try done.
        unfold meta_of. simpl. by rewrite lookup_insert_eq.
      * assert (Hnode : meta_sharding (meta_of (metas s1) (name node)) =
                        meta_sharding (meta_of (metas s) (name node))).
        { apply (f_equal meta_sharding), Hother.
          intros Heq. apply Hnotin. rewrite <- Heq.
          apply list_elem_of_fmap. exists node. split; [done|].
          by eapply list_elem_of_lookup_2. }
        rewrite (Hatt i node Hi), Hnode, Nat.add_succ_r. reflexivity.
Qed.

Lemma placeholders_receive_entries_witness :
  meta_sharding (meta_of (metas (snd
    (graph_loop (only rule_same) [VSpec 0%nat; VInt 7] two_placeholders
       (mkLocals 0 None None) (at_start spec_shard0)))) "arg0") = Some (VSpec 0%nat).
Proof.
  assert (Hnd : NoDup (name <$> two_placeholders)).
  { apply (bool_decide_unpack _). vm_compute. reflexivity. }
  apply (proj2 (proj2 (placeholders_receive_entries (only rule_same) [VSpec 0%nat; VInt 7]
                         two_placeholders ltac:(repeat constructor) Hnd
                         (mkLocals 0 None None) (at_start spec_shard0)
                         (mkLocals 2 None None)
                         (snd (graph_loop (only rule_same) [VSpec 0%nat; VInt 7]
                                 two_placeholders (mkLocals 0 None None)
                                 (at_start spec_shard0)))
                         ltac:(vm_compute; reflexivity)))
               0%nat (mkNode "arg0" "placeholder" aten_add (VList []) (VDict [])) eq_refl).
Defined.
